(** * CwaWeather-backend: the forecast relay of [server.js]

    A shallow embedding of [server.js]: the static city table, the
    per-city route, [getCityWeather] and the reshaping of the upstream
    CWA forecast document (lines 84-141), followed by the properties
    the specification states about them. *)

From Stdlib Require Import Ascii String.
From stdpp Require Import gmap strings list pretty.

Open Scope string_scope.
Open Scope list_scope.

(** ** JavaScript values that reach the handlers *)

(** What a property read on the city table can yield: [undefined], a
    string, a built-in function inherited from [Object.prototype], or
    [Object.prototype] itself (through the [__proto__] accessor). *)
Inductive JsValue :=
  | JsUndefined
  | JsString (s : string)
  | JsFunction (name : string)
  | JsObjectPrototype.

(** [ToString], as applied by a template literal [`${v}`]. *)
Definition ToString (v : JsValue) : string :=
  match v with
  | JsUndefined => "undefined"
  | JsString s => s
  | JsFunction name => "function " +:+ name +:+ "() { [native code] }"
  | JsObjectPrototype => "[object Object]"
  end.

(** [ToBoolean]: the operand of [!]. *)
Definition truthy (v : JsValue) : bool :=
  match v with
  | JsUndefined => false
  | JsString s => negb (String.eqb s "")
  | JsFunction _ => true
  | JsObjectPrototype => true
  end.

(** An abrupt completion.  The only exception lines 84-141 raise is
    the [TypeError] of reading a property of [undefined]; [reading]
    names that property. *)
Inductive Thrown :=
  | TypeError (reading : string).

Inductive Completion (A : Type) :=
  | Normal (a : A)
  | Throw (e : Thrown).
Arguments Normal {A} a.
Arguments Throw {A} e.

Definition bind {A B} (c : Completion A) (k : A -> Completion B) : Completion B :=
  match c with
  | Normal a => k a
  | Throw e => Throw e
  end.

Notation "'let!' x ':=' c 'in' k" := (bind c (fun x => k))
  (at level 10, x name, c at level 100, k at level 200).

(** [o.p] where [o] is the result of an index expression: [undefined]
    has no properties. *)
Definition member {A} (o : option A) (p : string) : Completion A :=
  match o with
  | Some a => Normal a
  | None => Throw (TypeError p)
  end.

(** ** The upstream document (dataset F-C0032-001) *)

Module Raw.

(** [time[i].parameter]; only [parameterName] is read. *)
Record ElementValue := { parameterName : string }.

Record TimeSlot := {
  startTime : string;
  endTime : string;
  parameter : ElementValue
}.

Record WeatherElement := {
  elementName : string;
  time : list TimeSlot
}.

Record Location := {
  locationName : string;
  weatherElement : list WeatherElement
}.

Record Records := {
  datasetDescription : string;
  location : list Location
}.

(** [response.data] *)
Record Data := { records : Records }.

End Raw.

(** ** The reshaped forecast *)

(** The object literal of lines 105-114. *)
Record Forecast := {
  startTime : string;
  endTime : string;
  weather : string;
  rain : string;
  minTemp : string;
  maxTemp : string;
  comfort : string;
  windSpeed : string
}.

(** [weatherData], lines 94-98. *)
Record WeatherData := {
  city : string;
  updateTime : string;
  forecasts : list Forecast
}.

(** The body of the 404 answer, lines 87-90. *)
Record NotFoundError := {
  error : string;
  message : string
}.

Definition set_weather (f : Forecast) (v : string) : Forecast :=
  {| startTime := startTime f; endTime := endTime f; weather := v;
     rain := rain f; minTemp := minTemp f; maxTemp := maxTemp f;
     comfort := comfort f; windSpeed := windSpeed f |}.

Definition set_rain (f : Forecast) (v : string) : Forecast :=
  {| startTime := startTime f; endTime := endTime f; weather := weather f;
     rain := v; minTemp := minTemp f; maxTemp := maxTemp f;
     comfort := comfort f; windSpeed := windSpeed f |}.

Definition set_minTemp (f : Forecast) (v : string) : Forecast :=
  {| startTime := startTime f; endTime := endTime f; weather := weather f;
     rain := rain f; minTemp := v; maxTemp := maxTemp f;
     comfort := comfort f; windSpeed := windSpeed f |}.

Definition set_maxTemp (f : Forecast) (v : string) : Forecast :=
  {| startTime := startTime f; endTime := endTime f; weather := weather f;
     rain := rain f; minTemp := minTemp f; maxTemp := v;
     comfort := comfort f; windSpeed := windSpeed f |}.

Definition set_comfort (f : Forecast) (v : string) : Forecast :=
  {| startTime := startTime f; endTime := endTime f; weather := weather f;
     rain := rain f; minTemp := minTemp f; maxTemp := maxTemp f;
     comfort := v; windSpeed := windSpeed f |}.

Definition set_windSpeed (f : Forecast) (v : string) : Forecast :=
  {| startTime := startTime f; endTime := endTime f; weather := weather f;
     rain := rain f; minTemp := minTemp f; maxTemp := maxTemp f;
     comfort := comfort f; windSpeed := v |}.

(** ** Lines 84-141 of [getCityWeather] *)

(** The [switch] of lines 118-137. *)
Definition switch_elementName (name : string) (value : Raw.ElementValue)
    (forecast : Forecast) : Forecast :=
  if String.eqb name "Wx" then set_weather forecast (Raw.parameterName value)
  else if String.eqb name "PoP" then set_rain forecast (Raw.parameterName value +:+ "%")
  else if String.eqb name "MinT" then set_minTemp forecast (Raw.parameterName value +:+ "°C")
  else if String.eqb name "MaxT" then set_maxTemp forecast (Raw.parameterName value +:+ "°C")
  else if String.eqb name "CI" then set_comfort forecast (Raw.parameterName value)
  else if String.eqb name "WS" then set_windSpeed forecast (Raw.parameterName value)
  else forecast.

(** The callback of [forEach], lines 116-138: [element.time[i].parameter]
    is read before the [switch], whatever the element's name. *)
Definition forEach_body (i : nat) (forecast : Forecast)
    (element : Raw.WeatherElement) : Completion Forecast :=
  let! slot := member (Raw.time element !! i) "parameter" in
  let value := Raw.parameter slot in
  Normal (switch_elementName (Raw.elementName element) value forecast).

Fixpoint forEach (i : nat) (elements : list Raw.WeatherElement)
    (forecast : Forecast) : Completion Forecast :=
  match elements with
  | [] => Normal forecast
  | element :: rest =>
      let! forecast' := forEach_body i forecast element in
      forEach i rest forecast'
  end.

(** The object literal of lines 105-114, from [weatherElements[0].time[i]]. *)
Definition new_forecast (slot : Raw.TimeSlot) : Forecast :=
  {| startTime := Raw.startTime slot; endTime := Raw.endTime slot;
     weather := ""; rain := ""; minTemp := ""; maxTemp := "";
     comfort := ""; windSpeed := "" |}.

(** One turn of the [for] loop, lines 105-140, up to the [push]. *)
Definition loop_body (weatherElements : list Raw.WeatherElement) (i : nat)
    : Completion Forecast :=
  let! first := member (weatherElements !! 0) "time" in
  let! slot := member (Raw.time first !! i) "startTime" in
  let forecast := new_forecast slot in
  forEach i weatherElements forecast.

(** [for (let i = 0; i < timeCount; i++)]: [todo] is [timeCount - i]. *)
Fixpoint for_loop (weatherElements : list Raw.WeatherElement)
    (todo i : nat) (pushed : list Forecast) : Completion (list Forecast) :=
  match todo with
  | 0 => Normal pushed
  | S todo' =>
      let! forecast := loop_body weatherElements i in
      for_loop weatherElements todo' (S i) (pushed ++ [forecast])
  end.

(** The transform: what lines 84-141 compute from [response.data] and
    [cityName], the 404 body on the left-hand side of the sum being
    what line 87 sends. *)
Definition normalize (data : Raw.Data) (cityName : JsValue)
    : Completion (WeatherData + NotFoundError) :=
  match Raw.location (Raw.records data) !! 0 with
  | None =>
      Normal (inr {| error := "查無資料";
                     message := "無法取得" +:+ ToString cityName +:+ "天氣資料" |})
  | Some locationData =>
      let weatherElements := Raw.weatherElement locationData in
      let! first := member (weatherElements !! 0) "time" in
      let timeCount := length (Raw.time first) in
      let! pushed := for_loop weatherElements timeCount 0 [] in
      Normal (inl {| city := Raw.locationName locationData;
                     updateTime := Raw.datasetDescription (Raw.records data);
                     forecasts := pushed |})
  end.

(** ** The city table, lines 32-55 *)

(** The object literal, in source order (the order [Object.keys]
    enumerates string keys in). *)
Definition CITY_MAP : list (string * string) :=
  [ ("taipei", "臺北市");
    ("newtaipei", "新北市");
    ("taoyuan", "桃園市");
    ("taichung", "臺中市");
    ("tainan", "臺南市");
    ("kaohsiung", "高雄市");
    ("keelung", "基隆市");
    ("hsinchu-city", "新竹市");
    ("hsinchu", "新竹縣");
    ("miaoli", "苗栗縣");
    ("changhua", "彰化縣");
    ("nantou", "南投縣");
    ("yunlin", "雲林縣");
    ("chiayi-city", "嘉義市");
    ("chiayi", "嘉義縣");
    ("pingtung", "屏東縣");
    ("yilan", "宜蘭縣");
    ("hualien", "花蓮縣");
    ("taitung", "臺東縣");
    ("penghu", "澎湖縣");
    ("kinmen", "金門縣");
    ("lienchiang", "連江縣") ].

(** The properties every object literal inherits: the members of
    [Object.prototype].  All are built-in functions but [__proto__], an
    accessor that yields the prototype object. *)
Definition Object_prototype : list (string * JsValue) :=
  [ ("constructor", JsFunction "Object");
    ("__defineGetter__", JsFunction "__defineGetter__");
    ("__defineSetter__", JsFunction "__defineSetter__");
    ("hasOwnProperty", JsFunction "hasOwnProperty");
    ("__lookupGetter__", JsFunction "__lookupGetter__");
    ("__lookupSetter__", JsFunction "__lookupSetter__");
    ("isPrototypeOf", JsFunction "isPrototypeOf");
    ("propertyIsEnumerable", JsFunction "propertyIsEnumerable");
    ("toString", JsFunction "toString");
    ("valueOf", JsFunction "valueOf");
    ("__proto__", JsObjectPrototype);
    ("toLocaleString", JsFunction "toLocaleString") ].

Fixpoint own_property {V} (props : list (string * V)) (key : string) : option V :=
  match props with
  | [] => None
  | (k, v) :: rest => if String.eqb k key then Some v else own_property rest key
  end.

(** [table[key]] on an object literal: the own property if there is
    one, else the inherited one, else [undefined]. *)
Definition get_property (table : list (string * string)) (key : string) : JsValue :=
  match own_property table key with
  | Some name => JsString name
  | None =>
      match own_property Object_prototype key with
      | Some v => v
      | None => JsUndefined
      end
  end.

(** [Object.keys(table)] *)
Definition Object_keys (table : list (string * string)) : list string :=
  map fst table.

(** [String.prototype.toLowerCase] on the ASCII range, which is the
    range the table's keys are written in; other bytes are kept. *)
Definition lower (c : ascii) : ascii :=
  let n := nat_of_ascii c in
  if ((65 <=? n) && (n <=? 90))%nat then ascii_of_nat (n + 32) else c.

Fixpoint toLowerCase (s : string) : string :=
  match s with
  | EmptyString => EmptyString
  | String c rest => String (lower c) (toLowerCase rest)
  end.

(** A key of the table's alphabet: lower-case letters and hyphens. *)
Definition lower_ident_char (c : ascii) : bool :=
  let n := nat_of_ascii c in
  (((97 <=? n) && (n <=? 122)) || (n =? 45))%nat.

Fixpoint lower_ident_chars (s : string) : bool :=
  match s with
  | EmptyString => true
  | String c rest => lower_ident_char c && lower_ident_chars rest
  end.

Definition lower_identifier (s : string) : bool :=
  negb (String.eqb s "") && lower_ident_chars s.

(** ** The process: globals and what it emits *)

(** [error.response] of a rejected upstream call. *)
Record ErrorResponse := {
  response_status : nat;
  response_data_message : option string;
  response_data : string
}.

(** What the [catch] of line 149 can receive. *)
Inductive Caught :=
  | CaughtThrown (e : Thrown)
  | CaughtAxios (message : string) (response : option ErrorResponse).

Inductive Event :=
  | console_log (line : string)
  | console_error (line : string) (detail : Caught)
  | axios_get (url : string) (Authorization : string) (locationName : JsValue).

(** The module-level object [CITY_MAP] and the effects so far. *)
Record Process := {
  table : list (string * string);
  trace : list Event
}.

Definition IO (A : Type) : Type := Process -> A * Process.

Definition io_ret {A} (a : A) : IO A := fun p => (a, p).

Definition io_bind {A B} (m : IO A) (k : A -> IO B) : IO B :=
  fun p => let (a, p') := m p in k a p'.

Notation "'do!' x ':=' c 'in' k" := (io_bind c (fun x => k))
  (at level 10, x name, c at level 100, k at level 200).
Notation "c ';;;' k" := (io_bind c (fun _ => k))
  (at level 100, k at level 200, right associativity).

Definition emit (e : Event) : IO unit :=
  fun p => (tt, {| table := table p; trace := trace p ++ [e] |}).

(** [CITY_MAP[key]] *)
Definition CITY_MAP_get (key : string) : IO JsValue :=
  fun p => (get_property (table p) key, p).

(** [Object.keys(CITY_MAP)] *)
Definition CITY_MAP_keys : IO (list string) :=
  fun p => (Object_keys (table p), p).

(** The upstream service: what [axios.get] settles to for a URL and the
    two query parameters. *)
Definition Upstream : Type :=
  string -> string -> JsValue -> Raw.Data + (string * option ErrorResponse).

Definition await_axios_get (upstream : Upstream) (url Authorization : string)
    (locationName : JsValue) : IO (Raw.Data + (string * option ErrorResponse)) :=
  emit (axios_get url Authorization locationName);;;
  io_ret (upstream url Authorization locationName).

(** ** Responses *)

Inductive Body :=
  | JsonError (error message : string)
  | JsonUpstreamError (error message details : string)
  | JsonUnsupported (error message : string) (supportedCities : list string)
      (requestedCity : string)
  | JsonSuccess (success : bool) (data : WeatherData)
  | JsonRoot (message : string) (supportedCities : list string) (totalCities : nat)
  | JsonHealth (status : string) (timestamp : string) (supportedCities : nat)
  | TextOK.

Record Response := {
  status : nat;
  body : Body
}.

(** ** [getCityWeather], lines 60-165 *)

Definition CWA_API_BASE_URL : string := "https://opendata.cwa.gov.tw/api".

(** [process.env.CWA_API_KEY] as a value. *)
Definition env_value (v : option string) : JsValue :=
  match v with
  | Some s => JsString s
  | None => JsUndefined
  end.

(** [a || b] on an optional string field. *)
Definition or_default (a : option string) (b : string) : string :=
  if truthy (env_value a) then ToString (env_value a) else b.

(** The [catch] block, lines 149-164. *)
Definition catch (cityName : JsValue) (error : Caught) : IO Response :=
  emit (console_error ("❌ 取得" +:+ ToString cityName +:+ "天氣資料失敗:") error);;;
  match error with
  | CaughtAxios _ (Some response) =>
      io_ret {| status := response_status response;
                body := JsonUpstreamError "CWA API 錯誤"
                          (or_default (response_data_message response) "無法取得天氣資料")
                          (response_data response) |}
  | _ =>
      io_ret {| status := 500;
                body := JsonError "伺服器錯誤" "無法取得天氣資料，請稍後再試" |}
  end.

Definition getCityWeather (CWA_API_KEY : option string) (upstream : Upstream)
    (cityName : JsValue) : IO Response :=
  if negb (truthy (env_value CWA_API_KEY)) then
    io_ret {| status := 500;
              body := JsonError "伺服器設定錯誤" "請在 .env 檔案中設定 CWA_API_KEY" |}
  else
    emit (console_log ("📡 正在取得 " +:+ ToString cityName +:+ " 的天氣資料..."));;;
    do! response :=
      await_axios_get upstream (CWA_API_BASE_URL +:+ "/v1/rest/datastore/F-C0032-001")
        (ToString (env_value CWA_API_KEY)) cityName in
    match response with
    | inr (message, error_response) => catch cityName (CaughtAxios message error_response)
    | inl data =>
        match normalize data cityName with
        | Throw e => catch cityName (CaughtThrown e)
        | Normal (inr not_found) =>
            io_ret {| status := 404;
                      body := JsonError (error not_found) (message not_found) |}
        | Normal (inl weatherData) =>
            emit (console_log ("✅ " +:+ ToString cityName +:+ " 天氣資料取得成功"));;;
            io_ret {| status := 200; body := JsonSuccess true weatherData |}
        end
    end.

(** ** Routes, lines 14-24 and 168-221 *)

Inductive Request :=
  | OPTIONS
  | GET_root
  | GET_health
  | GET_weather (city : string)
  | Unrouted.

(** [app.get("/api/weather/:city")], lines 190-204. *)
Definition weather_route (CWA_API_KEY : option string) (upstream : Upstream)
    (city : string) : IO Response :=
  let cityCode := toLowerCase city in
  do! cityName := CITY_MAP_get cityCode in
  if negb (truthy cityName) then
    do! supportedCities := CITY_MAP_keys in
    io_ret {| status := 400;
              body := JsonUnsupported "不支援的城市" "請使用以下城市代碼之一"
                        supportedCities cityCode |}
  else getCityWeather CWA_API_KEY upstream cityName.

(** One request served; [now] is [new Date().toISOString()].  The
    constant [endpoints] object of the root answer is left out. *)
Definition handle (CWA_API_KEY : option string) (upstream : Upstream)
    (now : string) (req : Request) : IO Response :=
  match req with
  | OPTIONS => io_ret {| status := 200; body := TextOK |}
  | GET_root =>
      do! supportedCities := CITY_MAP_keys in
      do! keys := CITY_MAP_keys in
      io_ret {| status := 200;
                body := JsonRoot "🌤️ 歡迎使用 CWA 天氣預報 API"
                          supportedCities (length keys) |}
  | GET_health =>
      do! keys := CITY_MAP_keys in
      io_ret {| status := 200; body := JsonHealth "OK" now (length keys) |}
  | GET_weather city => weather_route CWA_API_KEY upstream city
  | Unrouted =>
      io_ret {| status := 404;
                body := JsonError "找不到此路徑"
                          "請參考根路徑 / 查看可用的 API endpoints" |}
  end.

(** The process at start-up, and a run of requests served in order. *)
Definition boot : Process := {| table := CITY_MAP; trace := [] |}.

Fixpoint serve (CWA_API_KEY : option string) (upstream : Upstream)
    (reqs : list (string * Request)) (p : Process) : list Response * Process :=
  match reqs with
  | [] => ([], p)
  | (now, req) :: rest =>
      let (r, p') := handle CWA_API_KEY upstream now req p in
      let (rs, p'') := serve CWA_API_KEY upstream rest p' in
      (r :: rs, p'')
  end.

(** ** The vocabulary of the specification *)

(** The six element codes of the specification (4.1, step 4), with the
    field each one is written to and the text it is written as. *)
Inductive Code := Wx | PoP | MinT | MaxT | CI | WS.

Definition code_name (c : Code) : string :=
  match c with
  | Wx => "Wx" | PoP => "PoP" | MinT => "MinT"
  | MaxT => "MaxT" | CI => "CI" | WS => "WS"
  end.

Definition spec_field (c : Code) (f : Forecast) : string :=
  match c with
  | Wx => weather f | PoP => rain f | MinT => minTemp f
  | MaxT => maxTemp f | CI => comfort f | WS => windSpeed f
  end.

Definition spec_text (c : Code) (raw : string) : string :=
  match c with
  | Wx | CI | WS => raw
  | PoP => raw +:+ "%"
  | MinT | MaxT => raw +:+ "°C"
  end.

Definition recognized (element : Raw.WeatherElement) : bool :=
  existsb (fun c => String.eqb (Raw.elementName element) (code_name c))
    [Wx; PoP; MinT; MaxT; CI; WS].

(** The element [forEach] visits last among those called [name]. *)
Fixpoint last_named (name : string) (elements : list Raw.WeatherElement)
    : option Raw.WeatherElement :=
  match elements with
  | [] => None
  | element :: rest =>
      match last_named name rest with
      | Some later => Some later
      | None => if String.eqb (Raw.elementName element) name then Some element else None
      end
  end.

(** Every element of the record has as many time slots as the first. *)
Definition aligned (weatherElements : list Raw.WeatherElement) : Prop :=
  match weatherElements with
  | [] => False
  | first :: _ =>
      Forall (fun e => length (Raw.time e) = length (Raw.time first)) weatherElements
  end.

(** ** Sample documents *)

Definition slot (startTime endTime value : string) : Raw.TimeSlot :=
  {| Raw.startTime := startTime; Raw.endTime := endTime;
     Raw.parameter := {| Raw.parameterName := value |} |}.

Definition document (description name : string)
    (elements : list Raw.WeatherElement) : Raw.Data :=
  {| Raw.records :=
       {| Raw.datasetDescription := description;
          Raw.location :=
            [ {| Raw.locationName := name; Raw.weatherElement := elements |} ] |} |}.

(** The scenario of the specification (8.5): [Wx] and [PoP], two
    aligned slots each. *)
Definition cloudy_then_rainy : Raw.Data :=
  document "三十六小時天氣預報" "臺北市"
    [ {| Raw.elementName := "Wx";
         Raw.time := [ slot "2024-01-01T00:00" "2024-01-01T06:00" "Cloudy";
                       slot "2024-01-01T06:00" "2024-01-01T12:00" "Rainy" ] |};
      {| Raw.elementName := "PoP";
         Raw.time := [ slot "2024-01-01T00:00" "2024-01-01T06:00" "10";
                       slot "2024-01-01T06:00" "2024-01-01T12:00" "80" ] |} ].

(** No record for the location. *)
Definition no_location : Raw.Data :=
  {| Raw.records := {| Raw.datasetDescription := "三十六小時天氣預報";
                       Raw.location := [] |} |}.

(** [PoP] has one slot more than [Wx]. *)
Definition surplus_slot : Raw.Data :=
  document "三十六小時天氣預報" "臺北市"
    [ {| Raw.elementName := "Wx";
         Raw.time := [ slot "2024-01-01T00:00" "2024-01-01T06:00" "Cloudy" ] |};
      {| Raw.elementName := "PoP";
         Raw.time := [ slot "2024-01-01T00:00" "2024-01-01T06:00" "10";
                       slot "2024-01-01T06:00" "2024-01-01T12:00" "80" ] |} ].

(** [PoP] has one slot fewer than [Wx]. *)
Definition missing_slot : Raw.Data :=
  document "三十六小時天氣預報" "臺北市"
    [ {| Raw.elementName := "Wx";
         Raw.time := [ slot "2024-01-01T00:00" "2024-01-01T06:00" "Cloudy";
                       slot "2024-01-01T06:00" "2024-01-01T12:00" "Rainy" ] |};
      {| Raw.elementName := "PoP";
         Raw.time := [ slot "2024-01-01T00:00" "2024-01-01T06:00" "10" ] |} ].

(** A computation that leaves the table as it found it. *)
Definition keeps_table {A} (m : IO A) : Prop :=
  forall p, table (m p).2 = table p.

(** The two answers [getCityWeather] and the route give without
    calling upstream. *)
Definition configuration_error : Response :=
  {| status := 500;
     body := JsonError "伺服器設定錯誤" "請在 .env 檔案中設定 CWA_API_KEY" |}.

Definition unsupported_city (supportedCities : list string) (cityCode : string)
    : Response :=
  {| status := 400;
     body := JsonUnsupported "不支援的城市" "請使用以下城市代碼之一"
               supportedCities cityCode |}.

(** ** Lines 84-141 over a store of objects

    The same lines once more, now as JavaScript runs them: [response]
    is a reference into a store of objects and arrays, the two object
    literals and the array literal allocate, the assignments of the
    [switch] and the [push] write to the store. *)

Module Store.

Definition loc := positive.

(** The scalars of the dataset are strings; the other scalars of JSON
    are left out. *)
Inductive value :=
  | VUndefined
  | VString (s : string)
  | VRef (l : loc).

(** An object with its own properties in insertion order, or an array. *)
Inductive object :=
  | Obj (props : list (string * value))
  | Arr (items : list value).

Abbreviation heap := (gmap loc object).

(** How a statement ends.  [Unmodelled] marks the two conversions that
    are not followed here: an object as the bound of the loop, and an
    object joined to a string. *)
Inductive Outcome (A : Type) :=
  | Done (a : A)
  | Raised (e : Thrown)
  | Unmodelled.
Arguments Done {A} a.
Arguments Raised {A} e.
Arguments Unmodelled {A}.

Definition Run (A : Type) : Type := heap -> Outcome A * heap.

Definition ret {A} (a : A) : Run A := fun h => (Done a, h).

Definition bind {A B} (m : Run A) (k : A -> Run B) : Run B :=
  fun h =>
    match m h with
    | (Done a, h') => k a h'
    | (Raised e, h') => (Raised e, h')
    | (Unmodelled, h') => (Unmodelled, h')
    end.

Notation "'run!' x ':=' c 'in' k" := (bind c (fun x => k))
  (at level 10, x name, c at level 100, k at level 200).
Notation "c ';;!' k" := (bind c (fun _ => k))
  (at level 100, k at level 200, right associativity).

Definition set_own (key : string) (v : value) (props : list (string * value))
    : list (string * value) :=
  match own_property props key with
  | Some _ => map (fun kv => if String.eqb kv.1 key then (key, v) else kv) props
  | None => props ++ [(key, v)]
  end.

(** [v.key], for the property names these lines read: none of them is
    a member of a prototype, so strings and arrays answer [undefined]. *)
Definition get (v : value) (key : string) : Run value := fun h =>
  match v with
  | VUndefined => (Raised (TypeError key), h)
  | VString _ => (Done VUndefined, h)
  | VRef l =>
      match h !! l with
      | Some (Obj props) => (Done (default VUndefined (own_property props key)), h)
      | _ => (Done VUndefined, h)
      end
  end.

(** [v[i]] *)
Definition index (v : value) (i : nat) : Run value := fun h =>
  match v with
  | VUndefined => (Raised (TypeError (pretty i)), h)
  | VString s =>
      (Done (match String.get i s with
             | Some c => VString (String c EmptyString)
             | None => VUndefined
             end), h)
  | VRef l =>
      match h !! l with
      | Some (Arr items) => (Done (default VUndefined (items !! i)), h)
      | Some (Obj props) => (Done (default VUndefined (own_property props (pretty i))), h)
      | None => (Done VUndefined, h)
      end
  end.

(** [v.length] as the bound of [i < timeCount]: against [undefined]
    the comparison is false at once, like a bound of zero. *)
Definition length_of (v : value) : Run nat := fun h =>
  match v with
  | VUndefined => (Raised (TypeError "length"), h)
  | VString s => (Done (String.length s), h)
  | VRef l =>
      match h !! l with
      | Some (Arr items) => (Done (length items), h)
      | Some (Obj props) =>
          match own_property props "length" with
          | None | Some VUndefined => (Done 0, h)
          | Some _ => (Unmodelled, h)
          end
      | None => (Done 0, h)
      end
  end.

(** [v + suffix] *)
Definition concat (v : value) (suffix : string) : Run value := fun h =>
  match v with
  | VUndefined => (Done (VString ("undefined" +:+ suffix)), h)
  | VString s => (Done (VString (s +:+ suffix)), h)
  | VRef _ => (Unmodelled, h)
  end.

(** An object or array literal. *)
Definition alloc (o : object) : Run loc := fun h =>
  let l := fresh (dom h) in (Done l, <[l := o]> h).

(** [target.key = v] on the object a literal has just made. *)
Definition set_prop (target : loc) (key : string) (v : value) : Run unit := fun h =>
  match h !! target with
  | Some (Obj props) => (Done tt, <[target := Obj (set_own key v props)]> h)
  | _ => (Unmodelled, h)
  end.

(** [array.push(v)] *)
Definition push (array : value) (v : value) : Run unit := fun h =>
  match array with
  | VRef l =>
      match h !! l with
      | Some (Arr items) => (Done tt, <[l := Arr (items ++ [v])]> h)
      | _ => (Raised (TypeError "push"), h)
      end
  | _ => (Raised (TypeError "push"), h)
  end.

Fixpoint each (callback : value -> Run unit) (items : list value) : Run unit :=
  match items with
  | [] => ret tt
  | item :: rest => callback item;;! each callback rest
  end.

(** [array.forEach(callback)]; the callback of line 116 does not write
    to the array it runs over. *)
Definition forEach (array : value) (callback : value -> Run unit) : Run unit := fun h =>
  match array with
  | VRef l =>
      match h !! l with
      | Some (Arr items) => each callback items h
      | _ => (Raised (TypeError "forEach"), h)
      end
  | _ => (Raised (TypeError "forEach"), h)
  end.

Definition truthy (v : value) : bool :=
  match v with
  | VUndefined => false
  | VString s => negb (String.eqb s "")
  | VRef _ => true
  end.

(** Lines 116-138. *)
Definition forEach_body (forecast : loc) (i : nat) (element : value) : Run unit :=
  run! time := get element "time" in
  run! slot := index time i in
  run! value := get slot "parameter" in
  run! name := get element "elementName" in
  match name with
  | VString name =>
      if String.eqb name "Wx" then
        run! v := get value "parameterName" in set_prop forecast "weather" v
      else if String.eqb name "PoP" then
        run! v := get value "parameterName" in
        run! text := concat v "%" in set_prop forecast "rain" text
      else if String.eqb name "MinT" then
        run! v := get value "parameterName" in
        run! text := concat v "°C" in set_prop forecast "minTemp" text
      else if String.eqb name "MaxT" then
        run! v := get value "parameterName" in
        run! text := concat v "°C" in set_prop forecast "maxTemp" text
      else if String.eqb name "CI" then
        run! v := get value "parameterName" in set_prop forecast "comfort" v
      else if String.eqb name "WS" then
        run! v := get value "parameterName" in set_prop forecast "windSpeed" v
      else ret tt
  | _ => ret tt
  end.

(** Lines 105-140. *)
Definition loop_body (weatherData : loc) (weatherElements : value) (i : nat)
    : Run unit :=
  run! first := index weatherElements 0 in
  run! time := get first "time" in
  run! slot := index time i in
  run! startTime := get slot "startTime" in
  run! first := index weatherElements 0 in
  run! time := get first "time" in
  run! slot := index time i in
  run! endTime := get slot "endTime" in
  run! forecast :=
    alloc (Obj [ ("startTime", startTime); ("endTime", endTime);
                 ("weather", VString ""); ("rain", VString "");
                 ("minTemp", VString ""); ("maxTemp", VString "");
                 ("comfort", VString ""); ("windSpeed", VString "") ]) in
  forEach weatherElements (forEach_body forecast i);;!
  run! forecasts := get (VRef weatherData) "forecasts" in
  push forecasts (VRef forecast).

Fixpoint for_loop (weatherData : loc) (weatherElements : value) (todo i : nat)
    : Run unit :=
  match todo with
  | 0 => ret tt
  | S todo' =>
      loop_body weatherData weatherElements i;;!
      for_loop weatherData weatherElements todo' (S i)
  end.

(** Lines 84-141: the reference to [weatherData], or the 404 body. *)
Definition normalize (response : value) (cityName : JsValue)
    : Run (loc + NotFoundError) :=
  run! data := get response "data" in
  run! records := get data "records" in
  run! location := get records "location" in
  run! locationData := index location 0 in
  if negb (truthy locationData) then
    ret (inr {| error := "查無資料";
                message := "無法取得" +:+ ToString cityName +:+ "天氣資料" |})
  else
    run! city := get locationData "locationName" in
    run! data := get response "data" in
    run! records := get data "records" in
    run! updateTime := get records "datasetDescription" in
    run! forecasts := alloc (Arr []) in
    run! weatherData :=
      alloc (Obj [ ("city", city); ("updateTime", updateTime);
                   ("forecasts", VRef forecasts) ]) in
    run! weatherElements := get locationData "weatherElement" in
    run! first := index weatherElements 0 in
    run! time := get first "time" in
    run! timeCount := length_of time in
    for_loop weatherData weatherElements timeCount 0;;!
    ret (inl weatherData).

(** *** Reading the store *)

(** The object literal of lines 105-114 with the fields of [f]. *)
Definition forecast_obj (f : Forecast) : object :=
  Obj [ ("startTime", VString (startTime f)); ("endTime", VString (endTime f));
        ("weather", VString (weather f)); ("rain", VString (rain f));
        ("minTemp", VString (minTemp f)); ("maxTemp", VString (maxTemp f));
        ("comfort", VString (comfort f)); ("windSpeed", VString (windSpeed f)) ].

Definition read_string (props : list (string * value)) (key : string)
    : option string :=
  match own_property props key with
  | Some (VString s) => Some s
  | _ => None
  end.

Definition read_forecast (h : heap) (v : value) : option Forecast :=
  match v with
  | VRef l =>
      match h !! l with
      | Some (Obj props) =>
          startTime ← read_string props "startTime";
          endTime ← read_string props "endTime";
          weather ← read_string props "weather";
          rain ← read_string props "rain";
          minTemp ← read_string props "minTemp";
          maxTemp ← read_string props "maxTemp";
          comfort ← read_string props "comfort";
          windSpeed ← read_string props "windSpeed";
          Some {| startTime := startTime; endTime := endTime; weather := weather;
                  rain := rain; minTemp := minTemp; maxTemp := maxTemp;
                  comfort := comfort; windSpeed := windSpeed |}
      | _ => None
      end
  | _ => None
  end.

(** [weatherData] as a value: what [res.json] serializes. *)
Definition read_weatherData (h : heap) (weatherData : loc) : option WeatherData :=
  match h !! weatherData with
  | Some (Obj props) =>
      city ← read_string props "city";
      updateTime ← read_string props "updateTime";
      match own_property props "forecasts" with
      | Some (VRef l) =>
          match h !! l with
          | Some (Arr items) =>
              forecasts ← mapM (read_forecast h) items;
              Some {| city := city; updateTime := updateTime; forecasts := forecasts |}
          | _ => None
          end
      | _ => None
      end
  | _ => None
  end.

(** The result of a run as a value. *)
Definition read_result (r : Outcome (loc + NotFoundError) * heap)
    : option (Completion (WeatherData + NotFoundError)) :=
  match r.1 with
  | Done (inl weatherData) =>
      w ← read_weatherData r.2 weatherData; Some (Normal (inl w))
  | Done (inr e) => Some (Normal (inr e))
  | Raised e => Some (Throw e)
  | Unmodelled => None
  end.

(** *** Documents in the store *)

Definition repr_array {A} (R : value -> A -> Prop) (h : heap) (v : value)
    (xs : list A) : Prop :=
  exists l items, v = VRef l /\ h !! l = Some (Arr items) /\ Forall2 R items xs.

Definition repr_slot (h : heap) (v : value) (s : Raw.TimeSlot) : Prop :=
  exists l props lp pprops,
    v = VRef l /\ h !! l = Some (Obj props) /\
    own_property props "startTime" = Some (VString (Raw.startTime s)) /\
    own_property props "endTime" = Some (VString (Raw.endTime s)) /\
    own_property props "parameter" = Some (VRef lp) /\
    h !! lp = Some (Obj pprops) /\
    own_property pprops "parameterName"
    = Some (VString (Raw.parameterName (Raw.parameter s))).

Definition repr_element (h : heap) (v : value) (e : Raw.WeatherElement) : Prop :=
  exists l props time,
    v = VRef l /\ h !! l = Some (Obj props) /\
    own_property props "elementName" = Some (VString (Raw.elementName e)) /\
    own_property props "time" = Some time /\
    repr_array (repr_slot h) h time (Raw.time e).

Definition repr_location (h : heap) (v : value) (d : Raw.Location) : Prop :=
  exists l props elements,
    v = VRef l /\ h !! l = Some (Obj props) /\
    own_property props "locationName" = Some (VString (Raw.locationName d)) /\
    own_property props "weatherElement" = Some elements /\
    repr_array (repr_element h) h elements (Raw.weatherElement d).

(** [response] refers, in [h], to an answer whose [data] is [d]. *)
Definition represents (h : heap) (response : value) (d : Raw.Data) : Prop :=
  exists l props ldata dprops lrecords rprops location,
    response = VRef l /\ h !! l = Some (Obj props) /\
    own_property props "data" = Some (VRef ldata) /\
    h !! ldata = Some (Obj dprops) /\
    own_property dprops "records" = Some (VRef lrecords) /\
    h !! lrecords = Some (Obj rprops) /\
    own_property rprops "datasetDescription"
    = Some (VString (Raw.datasetDescription (Raw.records d))) /\
    own_property rprops "location" = Some location /\
    repr_array (repr_location h) h location (Raw.location (Raw.records d)).

(** The array at [forecasts] holds references to objects with the
    fields of [pushed], in order. *)
Definition holds_forecasts (h : heap) (forecasts : loc) (pushed : list Forecast)
    : Prop :=
  exists items,
    h !! forecasts = Some (Arr items) /\
    Forall2 (fun v f => exists l, v = VRef l /\ h !! l = Some (forecast_obj f))
      items pushed.

(** [h'] is [h] but, at most, for the object at [l]. *)
Definition touched (l : loc) (h h' : heap) : Prop :=
  h' = h \/ exists o, h' = <[l := o]> h.

(** An answer in the store whose location list is empty. *)
Definition no_location_store : heap :=
  {[ 1%positive := Obj [ ("status", VString "200"); ("data", VRef 2%positive) ];
     2%positive := Obj [ ("success", VString "true"); ("records", VRef 3%positive) ];
     3%positive := Obj [ ("datasetDescription", VString "三十六小時天氣預報");
                         ("location", VRef 4%positive) ];
     4%positive := Arr [] ]}.

(** An answer in the store with one location, one element and one slot. *)
Definition rain_store : heap :=
  {[ 1%positive := Obj [ ("status", VString "200"); ("data", VRef 2%positive) ];
     2%positive := Obj [ ("success", VString "true"); ("records", VRef 3%positive) ];
     3%positive := Obj [ ("datasetDescription", VString "三十六小時天氣預報");
                         ("location", VRef 4%positive) ];
     4%positive := Arr [ VRef 5%positive ];
     5%positive := Obj [ ("locationName", VString "臺北市");
                         ("weatherElement", VRef 6%positive) ];
     6%positive := Arr [ VRef 7%positive ];
     7%positive := Obj [ ("elementName", VString "PoP"); ("time", VRef 8%positive) ];
     8%positive := Arr [ VRef 9%positive ];
     9%positive := Obj [ ("startTime", VString "2024-01-01T00:00");
                         ("endTime", VString "2024-01-01T06:00");
                         ("parameter", VRef 10%positive) ];
     10%positive := Obj [ ("parameterName", VString "10");
                          ("parameterUnit", VString "百分比") ] ]}.

End Store.

(** The document [Store.rain_store] holds. *)
Definition rain_only : Raw.Data :=
  document "三十六小時天氣預報" "臺北市"
    [ {| Raw.elementName := "PoP";
         Raw.time := [ slot "2024-01-01T00:00" "2024-01-01T06:00" "10" ] |} ].

(** ** Further vocabulary for the properties of the handlers *)

(** The address line 74 asks. *)
Definition dataset_url : string :=
  CWA_API_BASE_URL +:+ "/v1/rest/datastore/F-C0032-001".

(** The answer of the last lines of the [catch], 160-163. *)
Definition server_error : Response :=
  {| status := 500;
     body := JsonError "伺服器錯誤" "無法取得天氣資料，請稍後再試" |}.

(** The upstream requests among the events. *)
Definition is_upstream_call (e : Event) : bool :=
  match e with
  | axios_get _ _ _ => true
  | _ => false
  end.

Definition upstream_calls (events : list Event) : list Event :=
  List.filter is_upstream_call events.



(** The document cut down to what the loop visits: the first location
    record, and of each element the slots below the first element's
    slot count. *)
Definition trim_element (n : nat) (e : Raw.WeatherElement) : Raw.WeatherElement :=
  {| Raw.elementName := Raw.elementName e; Raw.time := take n (Raw.time e) |}.

Definition visited (data : Raw.Data) : Raw.Data :=
  match Raw.location (Raw.records data) with
  | [] => data
  | locationData :: _ =>
      let n := match Raw.weatherElement locationData with
               | [] => 0
               | first :: _ => length (Raw.time first)
               end in
      {| Raw.records :=
           {| Raw.datasetDescription := Raw.datasetDescription (Raw.records data);
              Raw.location :=
                [ {| Raw.locationName := Raw.locationName locationData;
                     Raw.weatherElement :=
                       map (trim_element n) (Raw.weatherElement locationData) |} ] |} |}
  end.

(** Two records for one request, the second with slots the first lacks. *)
Definition two_records : Raw.Data :=
  {| Raw.records :=
       {| Raw.datasetDescription := "三十六小時天氣預報";
          Raw.location :=
            [ {| Raw.locationName := "臺北市";
                 Raw.weatherElement :=
                   [ {| Raw.elementName := "Wx";
                        Raw.time := [ slot "2024-01-01T00:00" "2024-01-01T06:00" "Cloudy" ] |};
                     {| Raw.elementName := "PoP";
                        Raw.time := [ slot "2024-01-01T00:00" "2024-01-01T06:00" "10";
                                      slot "2024-01-01T06:00" "2024-01-01T12:00" "80" ] |} ] |};
              {| Raw.locationName := "新北市"; Raw.weatherElement := [] |} ] |} |}.

(** A record without weather elements. *)
Definition no_elements : Raw.Data :=
  document "三十六小時天氣預報" "臺北市" [].

(** The array at [forecasts] holds references only, to objects of [h]
    that [h0] did not hold. *)
Definition holds_new_objects (h0 h : Store.heap) (forecasts : Store.loc) : Prop :=
  exists items,
    h !! forecasts = Some (Store.Arr items) /\
    Forall (fun v => exists l, v = Store.VRef l /\ h0 !! l = None /\ is_Some (h !! l))
      items.

(** * Properties *)

(** ** The [for] loop and [forEach] *)

Lemma bind_Normal {A B} (c : Completion A) (k : A -> Completion B) (b : B) :
  bind c k = Normal b -> exists a, c = Normal a /\ k a = Normal b.
Proof. destruct c as [a|e]; simpl; [eauto | discriminate]. Qed.

Lemma member_Normal {A} (o : option A) (p : string) (a : A) :
  member o p = Normal a -> o = Some a.
Proof. destruct o; simpl; congruence. Qed.

Lemma switch_startTime name value f :
  startTime (switch_elementName name value f) = startTime f.
Proof. unfold switch_elementName. repeat case_match; reflexivity. Qed.

Lemma switch_endTime name value f :
  endTime (switch_elementName name value f) = endTime f.
Proof. unfold switch_elementName. repeat case_match; reflexivity. Qed.

Lemma forEach_body_Normal i f element f' :
  forEach_body i f element = Normal f' ->
  exists slot, Raw.time element !! i = Some slot /\
    f' = switch_elementName (Raw.elementName element) (Raw.parameter slot) f.
Proof.
  unfold forEach_body. intros H.
  apply bind_Normal in H as (slot & Hm & H).
  apply member_Normal in Hm. exists slot. split; [done | congruence].
Qed.

Lemma forEach_times i elements : forall f f',
  forEach i elements f = Normal f' ->
  startTime f' = startTime f /\ endTime f' = endTime f.
Proof.
  induction elements as [|element rest IH]; simpl; intros f f' H.
  - by inversion H.
  - apply bind_Normal in H as (f1 & H1 & H).
    apply forEach_body_Normal in H1 as (slot & _ & ->).
    apply IH in H as [-> ->].
    by rewrite switch_startTime, switch_endTime.
Qed.

Lemma forEach_in_bounds i elements : forall f f',
  forEach i elements f = Normal f' ->
  Forall (fun e => i < length (Raw.time e)) elements.
Proof.
  induction elements as [|element rest IH]; simpl; intros f f' H; [constructor|].
  apply bind_Normal in H as (f1 & H1 & H).
  apply forEach_body_Normal in H1 as (slot & Hs & _).
  constructor; [by eapply lookup_lt_Some | by eapply IH].
Qed.

Lemma forEach_total i elements : forall f,
  Forall (fun e => i < length (Raw.time e)) elements ->
  exists f', forEach i elements f = Normal f'.
Proof.
  induction elements as [|element rest IH]; simpl; intros f H; [eauto|].
  inversion H as [|? ? Hi Hrest]; subst.
  apply lookup_lt_is_Some_2 in Hi as [slot Hs].
  unfold forEach_body. rewrite Hs. simpl. by apply IH.
Qed.

Lemma loop_body_Normal elements i f :
  loop_body elements i = Normal f ->
  exists first slot, elements !! 0 = Some first /\ Raw.time first !! i = Some slot /\
    forEach i elements (new_forecast slot) = Normal f.
Proof.
  unfold loop_body. intros H.
  apply bind_Normal in H as (first & H0 & H). apply member_Normal in H0.
  apply bind_Normal in H as (s & Hs & H). apply member_Normal in Hs.
  eauto.
Qed.

Lemma loop_body_total elements i :
  Forall (fun e => i < length (Raw.time e)) elements -> elements <> [] ->
  exists f, loop_body elements i = Normal f.
Proof.
  intros H Hne. destruct elements as [|first others]; [done|].
  unfold loop_body. simpl.
  pose proof H as H'. inversion H' as [|? ? Hi _]; subst.
  apply lookup_lt_is_Some_2 in Hi as [s Hs]. rewrite Hs.
  change (exists f, forEach i (first :: others) (new_forecast s) = Normal f).
  by apply forEach_total.
Qed.

Lemma for_loop_Normal elements todo : forall i pushed out,
  for_loop elements todo i pushed = Normal out ->
  exists fs, out = pushed ++ fs /\ length fs = todo /\
    forall k f, fs !! k = Some f -> loop_body elements (i + k) = Normal f.
Proof.
  induction todo as [|todo IH]; simpl; intros i pushed out H.
  - exists []. inversion H. split; [by rewrite app_nil_r|]. split; [done|].
    intros k f Hk. by rewrite lookup_nil in Hk.
  - apply bind_Normal in H as (f0 & H0 & H).
    apply IH in H as (fs & -> & Hlen & Hfs).
    exists (f0 :: fs). split; [by rewrite <- app_assoc|]. split; [simpl; lia|].
    intros [|k] f Hk; simpl in Hk.
    + inversion Hk; subst. by rewrite Nat.add_0_r.
    + apply Hfs in Hk. by replace (i + S k) with (S i + k) by lia.
Qed.

Lemma for_loop_total elements todo : forall i pushed,
  (forall k, k < todo -> exists f, loop_body elements (i + k) = Normal f) ->
  exists out, for_loop elements todo i pushed = Normal out.
Proof.
  induction todo as [|todo IH]; simpl; intros i pushed H; [eauto|].
  destruct (H 0) as [f Hf]; [lia|]. rewrite Nat.add_0_r in Hf. rewrite Hf. simpl.
  apply IH. intros k Hk. destruct (H (S k)) as [g Hg]; [lia|].
  exists g. by replace (S i + k) with (i + S k) by lia.
Qed.

(** What a normal return of the transform on a located record amounts to. *)
Lemma normalize_Normal data cityName locationData rest weatherData :
  Raw.location (Raw.records data) = locationData :: rest ->
  normalize data cityName = Normal (inl weatherData) ->
  exists first,
    Raw.weatherElement locationData !! 0 = Some first /\
    city weatherData = Raw.locationName locationData /\
    updateTime weatherData = Raw.datasetDescription (Raw.records data) /\
    length (forecasts weatherData) = length (Raw.time first) /\
    forall k f, forecasts weatherData !! k = Some f ->
      loop_body (Raw.weatherElement locationData) k = Normal f.
Proof.
  unfold normalize. intros -> H. simpl in H.
  apply bind_Normal in H as (first & H0 & H). apply member_Normal in H0.
  apply bind_Normal in H as (pushed & Hloop & H).
  inversion H; subst; clear H. simpl.
  apply for_loop_Normal in Hloop as (fs & -> & Hlen & Hfs).
  exists first. repeat split; try done.
Qed.

Lemma normalize_total data cityName locationData rest first others :
  Raw.location (Raw.records data) = locationData :: rest ->
  Raw.weatherElement locationData = first :: others ->
  Forall (fun e => length (Raw.time first) <= length (Raw.time e)) (first :: others) ->
  exists weatherData, normalize data cityName = Normal (inl weatherData).
Proof.
  intros Hl He Hall. unfold normalize. rewrite Hl. simpl. rewrite He. simpl.
  destruct (for_loop_total (first :: others) (length (Raw.time first)) 0 [])
    as [out Hout]; [|rewrite Hout; simpl; eauto].
  intros k Hk. simpl. apply loop_body_total; [|done].
  eapply Forall_impl; [exact Hall|]. simpl. intros e ?. lia.
Qed.

(** ** The [switch] against the specification's table of codes *)

Lemma switch_hit c value f :
  spec_field c (switch_elementName (code_name c) value f)
  = spec_text c (Raw.parameterName value).
Proof. by destruct c. Qed.

Lemma switch_miss c name value f :
  String.eqb name (code_name c) = false ->
  spec_field c (switch_elementName name value f) = spec_field c f.
Proof.
  intros H. unfold switch_elementName.
  destruct c; simpl in H; repeat case_match; simpl; congruence.
Qed.

Lemma switch_unrecognized element value f :
  recognized element = false ->
  switch_elementName (Raw.elementName element) value f = f.
Proof.
  unfold recognized, switch_elementName. simpl. intros H.
  repeat (apply orb_false_elim in H as [-> H]). done.
Qed.

Lemma last_named_None name elements :
  last_named name elements = None <->
  forall e, e ∈ elements -> Raw.elementName e <> name.
Proof.
  induction elements as [|element rest IH]; simpl.
  - split; [|done]. intros _ e He. by apply elem_of_nil in He.
  - destruct (last_named name rest) as [later|] eqn:Hrest.
    + split; [done|]. intros H. exfalso.
      assert (Some later = None) as Habs; [|done].
      apply IH. intros e He. apply H. by right.
    + destruct (String.eqb_spec (Raw.elementName element) name) as [Heq|Hne].
      * split; [done|]. intros H. exfalso. by apply (H element); [left|].
      * split; [|done]. intros _ e He.
        apply elem_of_cons in He as [->|He]; [done|].
        by apply (proj1 IH).
Qed.

Lemma forEach_field c i elements : forall f f',
  forEach i elements f = Normal f' ->
  match last_named (code_name c) elements with
  | Some e =>
      exists slot, Raw.time e !! i = Some slot /\
        spec_field c f' = spec_text c (Raw.parameterName (Raw.parameter slot))
  | None => spec_field c f' = spec_field c f
  end.
Proof.
  induction elements as [|element rest IH]; simpl; intros f f' H.
  - by inversion H.
  - apply bind_Normal in H as (f1 & H1 & H).
    apply forEach_body_Normal in H1 as (s & Hs & ->).
    apply IH in H.
    destruct (last_named (code_name c) rest) as [later|]; [done|].
    destruct (String.eqb_spec (Raw.elementName element) (code_name c)) as [Heq|Hne].
    + exists s. split; [done|]. by rewrite H, Heq, switch_hit.
    + rewrite H. apply switch_miss. by apply String.eqb_neq.
Qed.

Lemma forEach_recognized i elements : forall f f',
  forEach i elements f = Normal f' ->
  forEach i (List.filter recognized elements) f = Normal f'.
Proof.
  induction elements as [|element rest IH]; simpl; intros f f' H; [done|].
  apply bind_Normal in H as (f1 & H1 & H).
  destruct (recognized element) eqn:Hrec; simpl.
  - rewrite H1. simpl. by apply IH.
  - apply forEach_body_Normal in H1 as (s & _ & ->).
    rewrite switch_unrecognized in H by done. by apply IH.
Qed.

(** ** The transform *)

(** C1: when the document's location list is empty, the transform
    returns the not-found error whose message is built around the
    requested name, it returns no forecast, and [getCityWeather]
    answers 404 with that error. *)
Theorem normalize_empty_location data cityName :
  Raw.location (Raw.records data) = [] ->
  normalize data cityName
    = Normal (inr {| error := "查無資料";
                     message := "無法取得" +:+ ToString cityName +:+ "天氣資料" |})
  /\ (forall weatherData, normalize data cityName <> Normal (inl weatherData))
  /\ (forall CWA_API_KEY upstream p,
        truthy (env_value CWA_API_KEY) = true ->
        upstream (CWA_API_BASE_URL +:+ "/v1/rest/datastore/F-C0032-001")
          (ToString (env_value CWA_API_KEY)) cityName = inl data ->
        (getCityWeather CWA_API_KEY upstream cityName p).1
        = {| status := 404;
             body := JsonError "查無資料"
                       ("無法取得" +:+ ToString cityName +:+ "天氣資料") |}).
Proof.
  intros Hempty.
  assert (normalize data cityName
          = Normal (inr {| error := "查無資料";
                           message := "無法取得" +:+ ToString cityName +:+ "天氣資料" |}))
    as Hn by (unfold normalize; by rewrite Hempty).
  split; [done|]. split; [intros w; by rewrite Hn|].
  intros key upstream p Hkey Hup.
  unfold getCityWeather. rewrite Hkey. simpl.
  unfold io_bind, await_axios_get, io_bind, emit, io_ret. simpl.
  by rewrite Hup, Hn.
Qed.

Lemma normalize_empty_location_witness :
  normalize no_location (JsString "臺北市")
  = Normal (inr {| error := "查無資料"; message := "無法取得臺北市天氣資料" |}).
Proof.
  exact (proj1 (normalize_empty_location no_location (JsString "臺北市") eq_refl)).
Defined.

(** C2: on a document whose first record's first element has [n] time
    slots, the forecasts the transform returns are [n] entries, the
    [i]-th carrying the start and end time of that element's [i]-th
    slot; and it does return them whenever every element has at least
    [n] slots. *)
Theorem forecasts_follow_first_element
    data cityName locationData rest first others n :
  Raw.location (Raw.records data) = locationData :: rest ->
  Raw.weatherElement locationData = first :: others ->
  length (Raw.time first) = n ->
  (forall weatherData,
     normalize data cityName = Normal (inl weatherData) ->
     length (forecasts weatherData) = n /\
     (forall i s, Raw.time first !! i = Some s ->
        exists f, forecasts weatherData !! i = Some f /\
          startTime f = Raw.startTime s /\ endTime f = Raw.endTime s) /\
     map (fun f => (startTime f, endTime f)) (forecasts weatherData)
     = map (fun s => (Raw.startTime s, Raw.endTime s)) (Raw.time first))
  /\ (Forall (fun e => n <= length (Raw.time e)) (first :: others) ->
      exists weatherData, normalize data cityName = Normal (inl weatherData)).
Proof.
  intros Hl He Hn. split.
  - intros w Hw.
    destruct (normalize_Normal _ _ _ _ _ Hl Hw) as (first' & H0 & _ & _ & Hlen & Hfs).
    rewrite He in H0. simpl in H0. inversion H0; subst first'; clear H0.
    assert (forall i f s, forecasts w !! i = Some f -> Raw.time first !! i = Some s ->
              startTime f = Raw.startTime s /\ endTime f = Raw.endTime s) as Hcopy.
    { intros i f s Hf Hs. apply Hfs in Hf.
      apply loop_body_Normal in Hf as (first' & s' & H0 & Hs' & Hf).
      rewrite He in H0. simpl in H0. inversion H0; subst first'.
      rewrite Hs in Hs'. inversion Hs'; subst s'.
      by apply forEach_times in Hf as [-> ->]. }
    split; [congruence|]. split.
    + intros i s Hs.
      destruct (lookup_lt_is_Some_2 (forecasts w) i) as [f Hf].
      { rewrite Hlen. by eapply lookup_lt_Some. }
      exists f. split; [done|]. by eapply Hcopy.
    + apply list_eq. intros i. rewrite !list_lookup_fmap.
      destruct (forecasts w !! i) as [f|] eqn:Hf;
        destruct (Raw.time first !! i) as [s|] eqn:Hs; simpl; try done.
      * destruct (Hcopy i f s Hf Hs) as [-> ->]. done.
      * apply lookup_lt_Some in Hf. apply lookup_ge_None in Hs. lia.
      * apply lookup_lt_Some in Hs. apply lookup_ge_None in Hf. lia.
  - intros Hall. eapply normalize_total; [done..|]. by rewrite Hn.
Qed.

Lemma forecasts_follow_first_element_witness :
  exists weatherData,
    normalize cloudy_then_rainy (JsString "臺北市") = Normal (inl weatherData) /\
    length (forecasts weatherData) = 2.
Proof.
  destruct (forecasts_follow_first_element cloudy_then_rainy (JsString "臺北市")
              _ _ _ _ 2 eq_refl eq_refl eq_refl) as [Hshape Hreturns].
  destruct Hreturns as [weatherData Hw].
  { repeat constructor. }
  exists weatherData. split; [exact Hw|]. exact (proj1 (Hshape weatherData Hw)).
Defined.

(** C3: in every entry the transform returns, the field of each of the
    six codes holds the raw value of the element of that code (the last
    one, should the record repeat a code) in the text the specification
    gives: ["%"] appended for PoP, ["°C"] for MinT and MaxT, nothing for
    Wx, CI and WS; it is the empty string when no element has the code;
    and the entry is the one built from the elements of the six codes
    alone, the others leaving no mark on it. *)
Theorem entry_fields_by_code data cityName locationData rest weatherData i f :
  Raw.location (Raw.records data) = locationData :: rest ->
  normalize data cityName = Normal (inl weatherData) ->
  forecasts weatherData !! i = Some f ->
  (forall c element,
     last_named (code_name c) (Raw.weatherElement locationData) = Some element ->
     exists s, Raw.time element !! i = Some s /\
       spec_field c f = spec_text c (Raw.parameterName (Raw.parameter s)))
  /\ (forall c,
        (forall element, element ∈ Raw.weatherElement locationData ->
           Raw.elementName element <> code_name c) ->
        spec_field c f = "")
  /\ (exists first s,
        Raw.weatherElement locationData !! 0 = Some first /\
        Raw.time first !! i = Some s /\
        forEach i (List.filter recognized (Raw.weatherElement locationData))
          (new_forecast s) = Normal f).
Proof.
  intros Hl Hw Hf.
  destruct (normalize_Normal _ _ _ _ _ Hl Hw) as (first & H0 & _ & _ & _ & Hfs).
  apply Hfs in Hf. apply loop_body_Normal in Hf as (first' & s & H0' & Hs & Hf).
  repeat split.
  - intros c element Hlast.
    pose proof (forEach_field c _ _ _ _ Hf) as H. by rewrite Hlast in H.
  - intros c Hnone. apply last_named_None in Hnone.
    pose proof (forEach_field c _ _ _ _ Hf) as H. rewrite Hnone in H.
    rewrite H. by destruct c.
  - exists first', s. repeat split; try done. by apply forEach_recognized.
Qed.

Lemma entry_fields_by_code_witness :
  let f := {| startTime := "2024-01-01T00:00"; endTime := "2024-01-01T06:00";
              weather := "Cloudy"; rain := "10%"; minTemp := ""; maxTemp := "";
              comfort := ""; windSpeed := "" |} in
  (exists s, [ slot "2024-01-01T00:00" "2024-01-01T06:00" "10";
               slot "2024-01-01T06:00" "2024-01-01T12:00" "80" ] !! 0 = Some s /\
     spec_field PoP f = spec_text PoP (Raw.parameterName (Raw.parameter s)))
  /\ spec_field MinT f = "".
Proof.
  intros f.
  destruct (entry_fields_by_code cloudy_then_rainy (JsString "臺北市") _ _ _ 0 f
              eq_refl eq_refl eq_refl) as (Hpresent & Habsent & _).
  split.
  - exact (Hpresent PoP _ eq_refl).
  - apply (Habsent MinT). intros element He.
    apply elem_of_cons in He as [->|He]; [discriminate|].
    apply elem_of_cons in He as [->|He]; [discriminate|].
    by apply elem_of_nil in He.
Defined.

(** C4: the scenario of the specification: [Wx] valued Cloudy then
    Rainy and [PoP] valued 10 then 80 give two entries, Cloudy with 10%
    and Rainy with 80%, every other text field empty. *)
Theorem normalize_cloudy_then_rainy :
  normalize cloudy_then_rainy (JsString "臺北市")
  = Normal (inl
      {| city := "臺北市";
         updateTime := "三十六小時天氣預報";
         forecasts :=
           [ {| startTime := "2024-01-01T00:00"; endTime := "2024-01-01T06:00";
                weather := "Cloudy"; rain := "10%"; minTemp := ""; maxTemp := "";
                comfort := ""; windSpeed := "" |};
             {| startTime := "2024-01-01T06:00"; endTime := "2024-01-01T12:00";
                weather := "Rainy"; rain := "80%"; minTemp := ""; maxTemp := "";
                comfort := ""; windSpeed := "" |} ] |}).
Proof. reflexivity. Qed.

(** C5: whenever the transform returns a forecast for a document with a
    location record, [city] is that record's own [locationName],
    whatever name was requested, and [updateTime] is the document's
    [datasetDescription]. *)
Theorem city_and_updateTime data cityName locationData rest weatherData :
  Raw.location (Raw.records data) = locationData :: rest ->
  normalize data cityName = Normal (inl weatherData) ->
  city weatherData = Raw.locationName locationData /\
  updateTime weatherData = Raw.datasetDescription (Raw.records data).
Proof.
  intros Hl Hw.
  destruct (normalize_Normal _ _ _ _ _ Hl Hw) as (_ & _ & Hc & Hu & _). done.
Qed.

Lemma city_and_updateTime_witness :
  city {| city := "臺北市"; updateTime := "三十六小時天氣預報"; forecasts := [] |}
  = "臺北市" /\
  updateTime {| city := "臺北市"; updateTime := "三十六小時天氣預報"; forecasts := [] |}
  = "三十六小時天氣預報".
Proof.
  exact (city_and_updateTime
           (document "三十六小時天氣預報" "臺北市"
              [ {| Raw.elementName := "Wx"; Raw.time := [] |} ])
           (JsString "高雄市") _ _ _ eq_refl eq_refl).
Defined.

(** C7: when every element of the record has as many time slots as the
    first, each [element.time[i]] the loop reads, for [i] below the
    first element's slot count, exists, and the transform returns
    without a [TypeError].  Nothing checks the alignment: a record with
    a surplus slot is reshaped like an aligned one, and one with a
    missing slot ends in the [TypeError] of the read itself. *)
Theorem aligned_reads_in_bounds data cityName locationData rest :
  Raw.location (Raw.records data) = locationData :: rest ->
  aligned (Raw.weatherElement locationData) ->
  (exists first,
     Raw.weatherElement locationData !! 0 = Some first /\
     forall element i,
       element ∈ Raw.weatherElement locationData ->
       i < length (Raw.time first) ->
       is_Some (Raw.time element !! i))
  /\ (exists weatherData, normalize data cityName = Normal (inl weatherData))
  /\ (~ aligned [ {| Raw.elementName := "Wx";
                     Raw.time := [ slot "2024-01-01T00:00" "2024-01-01T06:00" "Cloudy" ] |};
                  {| Raw.elementName := "PoP";
                     Raw.time := [ slot "2024-01-01T00:00" "2024-01-01T06:00" "10";
                                   slot "2024-01-01T06:00" "2024-01-01T12:00" "80" ] |} ]
      /\ normalize surplus_slot cityName
         = Normal (inl
             {| city := "臺北市";
                updateTime := "三十六小時天氣預報";
                forecasts :=
                  [ {| startTime := "2024-01-01T00:00"; endTime := "2024-01-01T06:00";
                       weather := "Cloudy"; rain := "10%"; minTemp := "";
                       maxTemp := ""; comfort := ""; windSpeed := "" |} ] |})
      /\ normalize missing_slot cityName = Throw (TypeError "parameter")).
Proof.
  intros Hl Hal.
  destruct (Raw.weatherElement locationData) as [|first others] eqn:He; [done|].
  simpl in Hal. repeat split.
  - exists first. split; [done|]. intros element i Hin Hi.
    apply lookup_lt_is_Some_2.
    rewrite Forall_forall in Hal. rewrite (Hal element Hin). done.
  - eapply normalize_total; [done..|].
    eapply Forall_impl; [exact Hal|]. simpl. intros e ->. done.
  - simpl. intros H. inversion H as [|? ? _ H']; subst.
    inversion H' as [|? ? Hlen _]; subst. simpl in Hlen. discriminate.
Qed.

Lemma aligned_reads_in_bounds_witness :
  exists weatherData,
    normalize cloudy_then_rainy (JsString "臺北市") = Normal (inl weatherData).
Proof.
  refine (proj1 (proj2 (aligned_reads_in_bounds cloudy_then_rainy (JsString "臺北市")
                          _ _ eq_refl _))).
  simpl. repeat constructor.
Defined.

(** ** The city table and the routes *)

Lemma keeps_table_ret {A} (a : A) : keeps_table (io_ret a).
Proof. by intros p. Qed.

Lemma keeps_table_bind {A B} (m : IO A) (k : A -> IO B) :
  keeps_table m -> (forall a, keeps_table (k a)) -> keeps_table (io_bind m k).
Proof.
  intros Hm Hk p. unfold io_bind. specialize (Hm p).
  destruct (m p) as [a p']. simpl in Hm. by rewrite Hk.
Qed.

Lemma keeps_table_emit e : keeps_table (emit e).
Proof. by intros p. Qed.

Lemma keeps_table_get key : keeps_table (CITY_MAP_get key).
Proof. by intros p. Qed.

Lemma keeps_table_keys : keeps_table CITY_MAP_keys.
Proof. by intros p. Qed.

Create HintDb keeps discriminated.
#[local] Hint Resolve keeps_table_ret keeps_table_emit keeps_table_get
  keeps_table_keys : keeps.
#[local] Hint Extern 2 (keeps_table (io_bind _ _)) =>
  apply keeps_table_bind; [|intros ?] : keeps.

Lemma keeps_table_catch cityName error : keeps_table (catch cityName error).
Proof.
  unfold catch. apply keeps_table_bind; [auto with keeps|]. intros _.
  destruct error as [e|m [r|]]; auto with keeps.
Qed.

Lemma keeps_table_getCityWeather key upstream cityName :
  keeps_table (getCityWeather key upstream cityName).
Proof.
  unfold getCityWeather, await_axios_get.
  destruct (negb _); [auto with keeps|].
  apply keeps_table_bind; [auto with keeps|]. intros _.
  apply keeps_table_bind; [auto with keeps|]. intros [data|[m r]].
  - destruct (normalize data cityName) as [[w|nf]|e];
      auto using keeps_table_catch with keeps.
  - apply keeps_table_catch.
Qed.

Lemma keeps_table_weather_route key upstream city :
  keeps_table (weather_route key upstream city).
Proof.
  unfold weather_route. apply keeps_table_bind; [auto with keeps|].
  intros cityName. destruct (negb _);
    auto using keeps_table_getCityWeather with keeps.
Qed.

Lemma keeps_table_handle key upstream now req :
  keeps_table (handle key upstream now req).
Proof.
  destruct req; simpl; auto using keeps_table_weather_route with keeps.
Qed.

Lemma serve_table key upstream reqs : forall p,
  table (serve key upstream reqs p).2 = table p.
Proof.
  induction reqs as [|[now req] rest IH]; simpl; intros p; [done|].
  pose proof (keeps_table_handle key upstream now req p) as Hh.
  destruct (handle key upstream now req p) as [r p']. simpl in Hh.
  specialize (IH p'). destruct (serve key upstream rest p') as [rs p''].
  simpl in *. congruence.
Qed.

(** C8: the table has 22 entries, its keys are pairwise distinct and
    written in lower-case letters and hyphens, and the table is the
    same after every lookup, every enumeration, every request served
    and every run of requests from start-up. *)
Theorem CITY_MAP_fixed :
  length CITY_MAP = 22
  /\ NoDup (Object_keys CITY_MAP)
  /\ Forall (fun key => lower_identifier key = true /\ toLowerCase key = key)
       (Object_keys CITY_MAP)
  /\ (forall key p, (CITY_MAP_get key p).2 = p)
  /\ (forall p, (CITY_MAP_keys p).2 = p)
  /\ (forall CWA_API_KEY upstream now req p,
        table (handle CWA_API_KEY upstream now req p).2 = table p)
  /\ (forall CWA_API_KEY upstream reqs,
        table (serve CWA_API_KEY upstream reqs boot).2 = CITY_MAP).
Proof.
  split; [reflexivity|].
  split; [apply (bool_decide_unpack _); by vm_compute|].
  split; [repeat constructor|].
  split; [done|]. split; [done|].
  split; [intros; apply keeps_table_handle|].
  intros. by rewrite serve_table.
Qed.

(** The transform returns the not-found error for an empty location
    list and for nothing else. *)
Lemma normalize_error data cityName e :
  normalize data cityName = Normal (inr e) ->
  Raw.location (Raw.records data) = [] /\ error e = "查無資料".
Proof.
  unfold normalize.
  destruct (Raw.location (Raw.records data)) as [|locationData rest]; simpl.
  - intros H. by inversion H.
  - intros H. apply bind_Normal in H as (first & _ & H).
    apply bind_Normal in H as (pushed & _ & H). discriminate.
Qed.

(** C9: without the API key, [getCityWeather] answers 500 with the
    configuration message at once: nothing is logged, upstream is not
    called (the process is as before and the answer does not depend on
    what upstream would send), and so the transform does not run; the
    same holds from the route for every code the table resolves.  The
    check is not the transform's: the only error the transform returns
    is the not-found one, and with a key present no answer of
    [getCityWeather] is the configuration error. *)
Theorem missing_key_answers_first CWA_API_KEY upstream cityName p :
  truthy (env_value CWA_API_KEY) = false ->
  getCityWeather CWA_API_KEY upstream cityName p = (configuration_error, p)
  /\ (forall city,
        truthy (get_property (table p) (toLowerCase city)) = true ->
        weather_route CWA_API_KEY upstream city p = (configuration_error, p))
  /\ (forall data name e,
        normalize data name = Normal (inr e) ->
        Raw.location (Raw.records data) = [] /\ error e = "查無資料")
  /\ (forall key upstream' name p',
        truthy (env_value key) = true ->
        (getCityWeather key upstream' name p').1 <> configuration_error).
Proof.
  intros Hkey.
  assert (forall name, getCityWeather CWA_API_KEY upstream name p
                       = (configuration_error, p)) as Hg.
  { intros name. unfold getCityWeather. by rewrite Hkey. }
  split; [apply Hg|]. split.
  { intros city Hcity. unfold weather_route, io_bind, CITY_MAP_get.
    rewrite Hcity. simpl. apply Hg. }
  split; [apply normalize_error|].
  intros key upstream' name p' Hkey'.
  unfold getCityWeather, await_axios_get, io_bind, emit, io_ret.
  rewrite Hkey'. simpl.
  destruct (upstream' _ _ _) as [data|[m [r|]]]; simpl; try discriminate.
  destruct (normalize data name) as [[w|nf]|e]; simpl; discriminate.
Qed.

Lemma missing_key_answers_first_witness :
  getCityWeather None (fun _ _ _ => inl cloudy_then_rainy) (JsString "臺北市") boot
  = (configuration_error, boot).
Proof.
  exact (proj1 (missing_key_answers_first None (fun _ _ _ => inl cloudy_then_rainy)
                  (JsString "臺北市") boot eq_refl)).
Defined.

(** ** The per-city route *)



(** Codes with the same lower-case form get the same answer. *)
Lemma weather_route_ignores_case key upstream city1 city2 p :
  toLowerCase city1 = toLowerCase city2 ->
  weather_route key upstream city1 p = weather_route key upstream city2 p.
Proof. unfold weather_route. by intros ->. Qed.



(** The two inherited names a lower-cased code can hit are truthy. *)
Example inherited_names_are_truthy :
  get_property CITY_MAP "constructor" = JsFunction "Object"
  /\ get_property CITY_MAP "__proto__" = JsObjectPrototype
  /\ truthy (JsFunction "Object") = true /\ truthy JsObjectPrototype = true.
Proof. by split_and!. Qed.

(** The route on the 22 keys, in any letter case: the name of the table
    goes to [getCityWeather]. *)
Example weather_route_TAIPEI key upstream p :
  table p = CITY_MAP ->
  weather_route key upstream "TaiPei" p
  = getCityWeather key upstream (JsString "臺北市") p.
Proof.
  intros Ht. unfold weather_route, io_bind, CITY_MAP_get. by rewrite Ht.
Qed.

(** C10, at the code [constructor]: it is not a key of the table, yet
    the lookup yields the inherited [Object] function, which is truthy;
    the route does not answer 400 but calls [getCityWeather], which
    sends the request upstream with that function as location name. *)
Theorem constructor_is_not_rejected upstream :
  own_property CITY_MAP (toLowerCase "constructor") = None
  /\ get_property CITY_MAP (toLowerCase "constructor") = JsFunction "Object"
  /\ exists response later,
       weather_route (Some "key") upstream "constructor" boot
       = (response,
          {| table := CITY_MAP;
             trace :=
               console_log
                 "📡 正在取得 function Object() { [native code] } 的天氣資料..."
               :: axios_get
                    "https://opendata.cwa.gov.tw/api/v1/rest/datastore/F-C0032-001"
                    "key" (JsFunction "Object")
               :: later |})
       /\ response <> unsupported_city (Object_keys CITY_MAP) "constructor".
Proof.
  split; [reflexivity|]. split; [reflexivity|].
  unfold weather_route, io_bind, CITY_MAP_get. simpl.
  unfold getCityWeather, await_axios_get, io_bind, emit, io_ret. simpl.
  destruct (upstream _ _ _) as [data|[m [r|]]]; simpl.
  - destruct (normalize data _) as [[w|nf]|e]; simpl;
      eexists _, _; (split; [reflexivity|discriminate]).
  - eexists _, _; split; [reflexivity|]. discriminate.
  - eexists _, _; split; [reflexivity|]. discriminate.
Qed.

(** ** The transform over the store *)


Lemma get_Obj h l props key :
  h !! l = Some (Store.Obj props) ->
  Store.get (Store.VRef l) key h = (Store.Done (default Store.VUndefined (own_property props key)), h).
Proof. intros H. unfold Store.get. by rewrite H. Qed.

Lemma index_Arr h l items i :
  h !! l = Some (Store.Arr items) ->
  Store.index (Store.VRef l) i h = (Store.Done (default Store.VUndefined (items !! i)), h).
Proof. intros H. unfold Store.index. by rewrite H. Qed.

Lemma bind_Done {A B} (m : Store.Run A) (k : A -> Store.Run B) h a h' :
  m h = (Store.Done a, h') -> Store.bind m k h = k a h'.
Proof. intros H. unfold Store.bind. by rewrite H. Qed.

Lemma bind_Raised {A B} (m : Store.Run A) (k : A -> Store.Run B) h e h' :
  m h = (Store.Raised e, h') -> Store.bind m k h = (Store.Raised e, h').
Proof. intros H. unfold Store.bind. by rewrite H. Qed.

(** A document in the store stays what it is when the store grows. *)
Lemma repr_array_mono {A} (R R' : Store.value -> A -> Prop) h h' v xs :
  h ⊆ h' -> (forall v x, R v x -> R' v x) ->
  Store.repr_array R h v xs -> Store.repr_array R' h' v xs.
Proof.
  intros Hsub HR (l & items & -> & Hl & Hitems).
  exists l, items. split; [done|]. split; [by eapply lookup_weaken|].
  eapply Forall2_impl; eauto.
Qed.

Lemma repr_slot_mono h h' v s : h ⊆ h' -> Store.repr_slot h v s -> Store.repr_slot h' v s.
Proof.
  intros Hsub (l & props & lp & pprops & -> & Hl & Hs & He & Hp & Hlp & Hn).
  exists l, props, lp, pprops.
  split_and!; try done; by eapply lookup_weaken.
Qed.

Lemma repr_element_mono h h' v e :
  h ⊆ h' -> Store.repr_element h v e -> Store.repr_element h' v e.
Proof.
  intros Hsub (l & props & time & -> & Hl & Hn & Ht & Harr).
  exists l, props, time.
  split_and!; try done; [by eapply lookup_weaken|].
  eapply (repr_array_mono _ _ h h'); [done| |done].
  intros; by eapply repr_slot_mono.
Qed.

Lemma repr_location_mono h h' v d :
  h ⊆ h' -> Store.repr_location h v d -> Store.repr_location h' v d.
Proof.
  intros Hsub (l & props & elements & -> & Hl & Hn & He & Harr).
  exists l, props, elements.
  split_and!; try done; [by eapply lookup_weaken|].
  eapply (repr_array_mono _ _ h h'); [done| |done].
  intros; by eapply repr_element_mono.
Qed.

Lemma represents_mono h h' response d :
  h ⊆ h' -> Store.represents h response d -> Store.represents h' response d.
Proof.
  intros Hsub (l & props & ldata & dprops & lrecords & rprops & location
               & -> & Hl & Hd & Hld & Hr & Hlr & Hdesc & Hloc & Harr).
  exists l, props, ldata, dprops, lrecords, rprops, location.
  split_and!; try done; try by eapply lookup_weaken.
  eapply (repr_array_mono _ _ h h'); [done| |done].
  intros; by eapply repr_location_mono.
Qed.

(** Reading [items[i]] of a represented array. *)
Lemma repr_items_lookup {A} (R : Store.value -> A -> Prop) items (xs : list A) i :
  Forall2 R items xs ->
  match xs !! i with
  | Some x => exists v, items !! i = Some v /\ R v x
  | None => items !! i = None
  end.
Proof.
  intros H. destruct (xs !! i) as [x|] eqn:Hx.
  - destruct (Forall2_lookup_r _ _ _ _ _ H Hx) as (v & Hv & HR). eauto.
  - apply lookup_ge_None in Hx. apply lookup_ge_None.
    by rewrite (Forall2_length _ _ _ H).
Qed.

Lemma set_prop_forecast h l f key v :
  h !! l = Some (Store.forecast_obj f) ->
  Store.set_prop l key v h
  = (Store.Done tt, <[l := Store.Obj (Store.set_own key v
                            [ ("startTime", Store.VString (startTime f));
                              ("endTime", Store.VString (endTime f));
                              ("weather", Store.VString (weather f));
                              ("rain", Store.VString (rain f));
                              ("minTemp", Store.VString (minTemp f));
                              ("maxTemp", Store.VString (maxTemp f));
                              ("comfort", Store.VString (comfort f));
                              ("windSpeed", Store.VString (windSpeed f)) ])]> h).
Proof. intros H. unfold Store.set_prop. by rewrite H. Qed.

(** One call of the callback of line 116, against [forEach_body]. *)
Lemma sim_forEach_body h v e l f i :
  Store.repr_element h v e ->
  h !! l = Some (Store.forecast_obj f) ->
  Store.forEach_body l i v h
  = match forEach_body i f e with
    | Normal f' => (Store.Done tt, <[l := Store.forecast_obj f']> h)
    | Throw err => (Store.Raised err, h)
    end.
Proof.
  intros (le & props & time & -> & Hle & Hname & Htime
          & (lt & items & -> & Hlt & Hitems)) Hl.
  unfold Store.forEach_body, forEach_body.
  rewrite (bind_Done _ _ _ _ _ (get_Obj _ _ _ "time" Hle)), Htime. simpl.
  rewrite (bind_Done _ _ _ _ _ (index_Arr _ _ _ i Hlt)).
  pose proof (repr_items_lookup _ _ _ i Hitems) as Hi.
  destruct (Raw.time e !! i) as [s|]; simpl.
  - destruct Hi as (vs & -> & (ls & sprops & lp & pprops & -> & Hls & _ & _
                               & Hp & Hlp & Hpn)). simpl.
    rewrite (bind_Done _ _ _ _ _ (get_Obj _ _ _ "parameter" Hls)), Hp. simpl.
    rewrite (bind_Done _ _ _ _ _ (get_Obj _ _ _ "elementName" Hle)), Hname. simpl.
    unfold switch_elementName.
    repeat (destruct (String.eqb (Raw.elementName e) _);
      [ rewrite (bind_Done _ _ _ _ _ (get_Obj _ _ _ "parameterName" Hlp)), Hpn;
        unfold Store.bind, Store.concat, Store.set_prop; simpl;
        rewrite Hl; reflexivity |]).
    unfold Store.ret. by rewrite insert_id.
  - rewrite Hi. simpl. reflexivity.
Qed.


(** [forEach] over the elements, against [forEach]: the store changes
    at the forecast alone. *)
Lemma sim_each h0 l i items es :
  Forall2 (Store.repr_element h0) items es ->
  forall h f,
    h0 ⊆ h -> h0 !! l = None -> h !! l = Some (Store.forecast_obj f) ->
    exists f'',
      Store.each (Store.forEach_body l i) items h
      = (match forEach i es f with
         | Normal _ => Store.Done tt
         | Throw err => Store.Raised err
         end, <[l := Store.forecast_obj f'']> h)
      /\ forall f', forEach i es f = Normal f' -> f'' = f'.
Proof.
  induction 1 as [|v e items es Hv _ IH]; intros h f Hsub Hfresh Hl; simpl.
  - exists f. split; [|congruence]. unfold Store.ret. by rewrite insert_id.
  - pose proof (sim_forEach_body h v e l f i
                  (repr_element_mono _ _ _ _ Hsub Hv) Hl) as Hbody.
    destruct (forEach_body i f e) as [f1|err]; simpl.
    + rewrite (bind_Done _ _ _ _ _ Hbody).
      destruct (IH (<[l := Store.forecast_obj f1]> h) f1) as (f'' & Heach & Hf'').
      { by apply insert_subseteq_r. }
      { done. }
      { by rewrite lookup_insert_eq. }
      exists f''. split; [|done]. rewrite Heach. by rewrite insert_insert_eq.
    + rewrite (bind_Raised _ _ _ _ _ Hbody).
      exists f. split; [|done]. by rewrite insert_id.
Qed.

Lemma get_undefined key h :
  Store.get Store.VUndefined key h = (Store.Raised (TypeError key), h).
Proof. reflexivity. Qed.

(** One turn of the loop, against [loop_body]: on success the store
    gains the forecast and the array of forecasts its reference. *)
Lemma sim_loop_body h0 le items es lw wprops lfs pushed h i :
  h0 !! le = Some (Store.Arr items) ->
  Forall2 (Store.repr_element h0) items es ->
  h0 ⊆ h ->
  h0 !! lfs = None ->
  h !! lw = Some (Store.Obj wprops) ->
  own_property wprops "forecasts" = Some (Store.VRef lfs) ->
  h !! lfs = Some (Store.Arr pushed) ->
  match loop_body es i with
  | Normal f =>
      exists l, h !! l = None /\
        Store.loop_body lw (Store.VRef le) i h
        = (Store.Done tt,
           <[lfs := Store.Arr (pushed ++ [Store.VRef l])]>
             (<[l := Store.forecast_obj f]> h))
  | Throw err =>
      exists h', Store.loop_body lw (Store.VRef le) i h = (Store.Raised err, h')
                 /\ h0 ⊆ h'
  end.
Proof.
  intros Hle0 Hitems Hsub Hlfs0 Hlw Hfs Hlfs.
  pose proof (lookup_weaken _ _ _ _ Hle0 Hsub) as Hle.
  unfold Store.loop_body, loop_body.
  pose proof (repr_items_lookup _ _ _ 0 Hitems) as H0.
  rewrite (bind_Done _ _ _ _ _ (index_Arr _ _ _ 0 Hle)).
  destruct (es !! 0) as [first|]; simpl.
  2:{ rewrite H0. simpl. rewrite (bind_Raised _ _ _ _ _ (get_undefined _ _)). eauto. }
  destruct H0 as (v0 & Hv0 & Hfirst). rewrite Hv0. simpl.
  apply (repr_element_mono _ _ _ _ Hsub) in Hfirst
    as (l0 & props0 & time0 & -> & Hl0 & _ & Htime0
        & (lt0 & items0 & -> & Hlt0 & Hitems0)).
  pose proof (repr_items_lookup _ _ _ i Hitems0) as Hi.
  rewrite (bind_Done _ _ _ _ _ (get_Obj _ _ _ "time" Hl0)), Htime0. simpl.
  rewrite (bind_Done _ _ _ _ _ (index_Arr _ _ _ i Hlt0)).
  destruct (Raw.time first !! i) as [s|]; simpl.
  2:{ rewrite Hi. simpl. rewrite (bind_Raised _ _ _ _ _ (get_undefined _ _)). eauto. }
  destruct Hi as (vs & Hvs & (ls & sprops & lp & pprops & -> & Hls & Hstart & Hend & _)).
  rewrite Hvs. simpl.
  rewrite (bind_Done _ _ _ _ _ (get_Obj _ _ _ "startTime" Hls)), Hstart. simpl.
  rewrite (bind_Done _ _ _ _ _ (index_Arr _ _ _ 0 Hle)), Hv0. simpl.
  rewrite (bind_Done _ _ _ _ _ (get_Obj _ _ _ "time" Hl0)), Htime0. simpl.
  rewrite (bind_Done _ _ _ _ _ (index_Arr _ _ _ i Hlt0)), Hvs. simpl.
  rewrite (bind_Done _ _ _ _ _ (get_Obj _ _ _ "endTime" Hls)), Hend. simpl.
  set (l := fresh (dom h)).
  assert (h !! l = None) as Hl by apply not_elem_of_dom, is_fresh.
  rewrite (bind_Done _ _ _ _ _ (eq_refl : Store.alloc _ h = (Store.Done l, _))).
  fold l.
  change (Store.Obj _) with (Store.forecast_obj (new_forecast s)).
  set (h1 := <[l := Store.forecast_obj (new_forecast s)]> h).
  assert (h0 !! l = None) as Hl0' by (by eapply lookup_weaken_None).
  destruct (sim_each h0 l i items es Hitems h1 (new_forecast s))
    as (f'' & Heach & Hf'').
  { by apply insert_subseteq_r. }
  { done. }
  { unfold h1. by rewrite lookup_insert_eq. }
  assert (Store.forEach (Store.VRef le) (Store.forEach_body l i) h1
          = Store.each (Store.forEach_body l i) items h1) as Hfe.
  { unfold Store.forEach, h1. rewrite lookup_insert_ne by congruence. by rewrite Hle. }
  rewrite Heach in Hfe. unfold h1 in Hfe. rewrite insert_insert_eq in Hfe.
  destruct (forEach i es (new_forecast s)) as [f|err].
  - rewrite (bind_Done _ _ _ _ _ Hfe). rewrite (Hf'' f eq_refl).
    exists l. split; [done|].
    assert (<[l := Store.forecast_obj f]> h !! lw = Some (Store.Obj wprops)) as Hlw'.
    { rewrite lookup_insert_ne by congruence. done. }
    rewrite (bind_Done _ _ _ _ _ (get_Obj _ _ _ "forecasts" Hlw')), Hfs. simpl.
    unfold Store.push. rewrite lookup_insert_ne by congruence. by rewrite Hlfs.
  - rewrite (bind_Raised _ _ _ _ _ Hfe). eexists. split; [done|].
    by apply insert_subseteq_r.
Qed.


(** The loop, against [for_loop]. *)
Lemma sim_for_loop h0 le items es lw wprops lfs todo :
  h0 !! le = Some (Store.Arr items) ->
  Forall2 (Store.repr_element h0) items es ->
  h0 !! lfs = None ->
  own_property wprops "forecasts" = Some (Store.VRef lfs) ->
  forall i h pushed,
    h0 ⊆ h ->
    h !! lw = Some (Store.Obj wprops) ->
    Store.holds_forecasts h lfs pushed ->
    exists h', h0 ⊆ h' /\
      match for_loop es todo i pushed with
      | Normal out =>
          Store.for_loop lw (Store.VRef le) todo i h = (Store.Done tt, h') /\
          h' !! lw = Some (Store.Obj wprops) /\
          Store.holds_forecasts h' lfs out
      | Throw err =>
          Store.for_loop lw (Store.VRef le) todo i h = (Store.Raised err, h')
      end.
Proof.
  intros Hle Hitems Hlfs0 Hfs.
  induction todo as [|todo IH]; intros i h pushed Hsub Hlw Hpushed; simpl.
  - exists h. by split.
  - destruct Hpushed as (refs & Hlfs & Hrefs).
    pose proof (sim_loop_body h0 le items es lw wprops lfs refs h i
                  Hle Hitems Hsub Hlfs0 Hlw Hfs Hlfs) as Hbody.
    destruct (loop_body es i) as [f|err]; simpl.
    + destruct Hbody as (l & Hl & Hbody).
      rewrite (bind_Done _ _ _ _ _ Hbody).
      apply IH.
      * apply insert_subseteq_r; [done|]. apply insert_subseteq_r; [|done].
        by eapply lookup_weaken_None.
      * rewrite !lookup_insert_ne by congruence. done.
      * exists (refs ++ [Store.VRef l]). split; [by rewrite lookup_insert_eq|].
        apply Forall2_app.
        -- eapply Forall2_impl; [exact Hrefs|]. simpl.
           intros v g (l' & -> & Hl'). exists l'. split; [done|].
           unfold Store.forecast_obj in Hl'.
           rewrite !lookup_insert_ne by congruence. done.
        -- constructor; [|constructor]. exists l. split; [done|].
           rewrite lookup_insert_ne by congruence. by rewrite lookup_insert_eq.
    + destruct Hbody as (h' & Hbody & Hsub').
      exists h'. split; [done|]. by rewrite (bind_Raised _ _ _ _ _ Hbody).
Qed.

Lemma read_forecast_obj h l f :
  h !! l = Some (Store.forecast_obj f) ->
  Store.read_forecast h (Store.VRef l) = Some f.
Proof. intros H. unfold Store.read_forecast. rewrite H. by destruct f. Qed.

Lemma read_holds_forecasts h lfs pushed :
  Store.holds_forecasts h lfs pushed ->
  exists items, h !! lfs = Some (Store.Arr items) /\
    mapM (Store.read_forecast h) items = Some pushed.
Proof.
  intros (items & Hlfs & Hitems). exists items. split; [done|].
  apply mapM_Some. eapply Forall2_impl; [exact Hitems|]. simpl.
  intros v f (l & -> & Hl). by apply read_forecast_obj.
Qed.


(** The transform over the store returns what [normalize] returns of
    the represented document, and only adds objects to the store. *)
Lemma sim_normalize h response d cityName :
  Store.represents h response d ->
  h ⊆ (Store.normalize response cityName h).2 /\
  Store.read_result (Store.normalize response cityName h)
  = Some (normalize d cityName).
Proof.
  intros (lr & props & ldata & dprops & lrecords & rprops & location
          & -> & Hlr & Hdata & Hldata & Hrecords & Hlrecords & Hdesc & Hloc
          & (larr & locs & -> & Hlarr & Hlocs)).
  unfold Store.normalize, normalize.
  rewrite (bind_Done _ _ _ _ _ (get_Obj _ _ _ "data" Hlr)), Hdata. simpl.
  rewrite (bind_Done _ _ _ _ _ (get_Obj _ _ _ "records" Hldata)), Hrecords. simpl.
  rewrite (bind_Done _ _ _ _ _ (get_Obj _ _ _ "location" Hlrecords)), Hloc. simpl.
  rewrite (bind_Done _ _ _ _ _ (index_Arr _ _ _ 0 Hlarr)).
  pose proof (repr_items_lookup _ _ _ 0 Hlocs) as H0.
  destruct (Raw.location (Raw.records d) !! 0) as [locationData|].
  2:{ rewrite H0. simpl. by split. }
  destruct H0 as (v & -> & (ll & lprops & elements & -> & Hll & Hname & Helements
                            & (le & items & -> & Hle & Hitems))).
  simpl.
  rewrite (bind_Done _ _ _ _ _ (get_Obj _ _ _ "locationName" Hll)), Hname. simpl.
  rewrite (bind_Done _ _ _ _ _ (get_Obj _ _ _ "data" Hlr)), Hdata. simpl.
  rewrite (bind_Done _ _ _ _ _ (get_Obj _ _ _ "records" Hldata)), Hrecords. simpl.
  rewrite (bind_Done _ _ _ _ _ (get_Obj _ _ _ "datasetDescription" Hlrecords)), Hdesc.
  simpl.
  set (lfs := fresh (dom h)).
  assert (h !! lfs = None) as Hlfs by apply not_elem_of_dom, is_fresh.
  rewrite (bind_Done _ _ _ _ _ (eq_refl : Store.alloc _ h = (Store.Done lfs, _))).
  fold lfs. set (h1 := <[lfs := Store.Arr []]> h).
  set (lw := fresh (dom h1)).
  assert (h1 !! lw = None) as Hlw by apply not_elem_of_dom, is_fresh.
  rewrite (bind_Done _ _ _ _ _ (eq_refl : Store.alloc _ h1 = (Store.Done lw, _))).
  fold lw.
  set (wprops := [ ("city", Store.VString (Raw.locationName locationData));
                   ("updateTime",
                    Store.VString (Raw.datasetDescription (Raw.records d)));
                   ("forecasts", Store.VRef lfs) ]).
  set (h2 := <[lw := Store.Obj wprops]> h1).
  assert (h ⊆ h2) as Hsub.
  { apply insert_subseteq_r; [by eapply lookup_weaken_None, insert_subseteq|].
    by apply insert_subseteq. }
  assert (h2 !! lw = Some (Store.Obj wprops)) as Hlw2
    by (unfold h2; by rewrite lookup_insert_eq).
  assert (h2 !! lfs = Some (Store.Arr [])) as Hlfs2.
  { unfold h2. rewrite lookup_insert_ne.
    - unfold h1. by rewrite lookup_insert_eq.
    - intros ->. unfold h1 in Hlw. by rewrite lookup_insert_eq in Hlw. }
  rewrite (bind_Done _ _ _ _ _
             (get_Obj _ _ _ "weatherElement" (lookup_weaken _ _ _ _ Hll Hsub))),
    Helements. simpl.
  rewrite (bind_Done _ _ _ _ _ (index_Arr _ _ _ 0 (lookup_weaken _ _ _ _ Hle Hsub))).
  pose proof (repr_items_lookup _ _ _ 0 Hitems) as H0.
  destruct (Raw.weatherElement locationData !! 0) as [first|]; simpl.
  2:{ rewrite H0. simpl. by split. }
  destruct H0 as (v0 & -> & (l0 & props0 & time0 & -> & Hl0 & _ & Htime0
                             & (lt0 & items0 & -> & Hlt0 & Hitems0))).
  simpl.
  rewrite (bind_Done _ _ _ _ _
             (get_Obj _ _ _ "time" (lookup_weaken _ _ _ _ Hl0 Hsub))), Htime0.
  simpl.
  assert (Store.length_of (Store.VRef lt0) h2
          = (Store.Done (length (Raw.time first)), h2)) as Hlen.
  { unfold Store.length_of. rewrite (lookup_weaken _ _ _ _ Hlt0 Hsub).
    by rewrite (Forall2_length _ _ _ Hitems0). }
  rewrite (bind_Done _ _ _ _ _ Hlen).
  destruct (sim_for_loop h le items (Raw.weatherElement locationData) lw wprops lfs
              (length (Raw.time first)) Hle Hitems Hlfs eq_refl 0 h2 [] Hsub Hlw2)
    as (h' & Hsub' & Hloop).
  { exists []. split; [done|constructor]. }
  destruct (for_loop (Raw.weatherElement locationData) (length (Raw.time first)) 0 [])
    as [out|err]; simpl.
  - destruct Hloop as (Hloop & Hlw' & Hout).
    rewrite (bind_Done _ _ _ _ _ Hloop). simpl. split; [done|].
    apply read_holds_forecasts in Hout as (refs & Hlfs' & Hread).
    unfold Store.read_result, Store.read_weatherData. simpl.
    rewrite Hlw'. simpl. rewrite Hlfs'. simpl. by rewrite Hread.
  - rewrite (bind_Raised _ _ _ _ _ Hloop). simpl. by split.
Qed.

(** *** What the transform writes to, on any store *)

Lemma bind_post {A B} (m : Store.Run A) (k : A -> Store.Run B) h (P : Store.heap -> Prop) :
  P (m h).2 ->
  (forall a, (m h).1 = Store.Done a -> P (k a (m h).2).2) ->
  P (Store.bind m k h).2.
Proof.
  intros Hm Hk. unfold Store.bind.
  destruct (m h) as [[a|e|] h'] eqn:Hmh; simpl in *; auto.
Qed.

Lemma get_heap v key h : (Store.get v key h).2 = h.
Proof. unfold Store.get. destruct v; [done..|]. by destruct (h !! l) as [[]|]. Qed.

Lemma index_heap v i h : (Store.index v i h).2 = h.
Proof. unfold Store.index. destruct v; [done..|]. by destruct (h !! l) as [[]|]. Qed.

Lemma length_of_heap v h : (Store.length_of v h).2 = h.
Proof.
  unfold Store.length_of. destruct v; [done..|].
  destruct (h !! l) as [[props|]|]; [|done..].
  by destruct (own_property props "length") as [[]|].
Qed.

Lemma concat_heap v suffix h : (Store.concat v suffix h).2 = h.
Proof. by destruct v. Qed.

Lemma set_prop_touched l key v h : Store.touched l h (Store.set_prop l key v h).2.
Proof.
  unfold Store.set_prop. destruct (h !! l) as [[props|]|]; simpl;
    [right; eauto | by left..].
Qed.

Lemma touched_trans l h1 h2 h3 :
  Store.touched l h1 h2 -> Store.touched l h2 h3 -> Store.touched l h1 h3.
Proof.
  intros [->|[o ->]] [->|[o' ->]]; [by left | right; eauto | right; eauto |].
  right. exists o'. by rewrite insert_insert_eq.
Qed.

Lemma touched_lookup l h h' l' : Store.touched l h h' -> l' <> l -> h' !! l' = h !! l'.
Proof. intros [->|[o ->]] Hne; [done|]. by rewrite lookup_insert_ne. Qed.

Lemma touched_subseteq l h0 h h' :
  Store.touched l h h' -> h0 !! l = None -> h0 ⊆ h -> h0 ⊆ h'.
Proof. intros [->|[o ->]] Hl Hsub; [done|]. by apply insert_subseteq_r. Qed.

(** A step that reads: the store is as before. *)
Ltac read_step lem :=
  apply bind_post; [rewrite lem; by left | intros ? _; rewrite lem].

Lemma forEach_body_touched l i v h :
  Store.touched l h (Store.forEach_body l i v h).2.
Proof.
  unfold Store.forEach_body.
  read_step get_heap. read_step index_heap. read_step get_heap.
  read_step get_heap.
  match goal with |- context [match ?name with _ => _ end] => destruct name end;
    try by left.
  repeat (case_match; [ read_step get_heap; try read_step concat_heap;
                        apply set_prop_touched |]).
  by left.
Qed.

Lemma each_touched l i items : forall h,
  Store.touched l h (Store.each (Store.forEach_body l i) items h).2.
Proof.
  induction items as [|v rest IH]; intros h; simpl; [by left|].
  apply bind_post; [apply forEach_body_touched|]. intros _ _.
  eapply touched_trans; [apply forEach_body_touched | apply IH].
Qed.

Lemma forEach_touched l i v h :
  Store.touched l h (Store.forEach v (Store.forEach_body l i) h).2.
Proof.
  unfold Store.forEach. destruct v; try by left.
  destruct (h !! l0) as [[|items]|]; try by left. apply each_touched.
Qed.

(** What holds of the store between the statements of the loop: the
    objects it held at the call are there, [weatherData] is as the
    literal left it, and its array of forecasts is not one of them. *)
Lemma loop_body_frame h0 lw wprops lfs elements i h :
  own_property wprops "forecasts" = Some (Store.VRef lfs) ->
  h0 !! lfs = None ->
  h0 ⊆ h -> h !! lw = Some (Store.Obj wprops) ->
  h0 ⊆ (Store.loop_body lw elements i h).2 /\
  (Store.loop_body lw elements i h).2 !! lw = Some (Store.Obj wprops).
Proof.
  intros Hfs Hlfs0 Hsub Hlw.
  change ((fun h' => h0 ⊆ h' /\ h' !! lw = Some (Store.Obj wprops))
            (Store.loop_body lw elements i h).2).
  unfold Store.loop_body.
  apply bind_post; [by rewrite index_heap | intros ? _; rewrite index_heap].
  apply bind_post; [by rewrite get_heap | intros ? _; rewrite get_heap].
  apply bind_post; [by rewrite index_heap | intros ? _; rewrite index_heap].
  apply bind_post; [by rewrite get_heap | intros startTime _; rewrite get_heap].
  apply bind_post; [by rewrite index_heap | intros ? _; rewrite index_heap].
  apply bind_post; [by rewrite get_heap | intros ? _; rewrite get_heap].
  apply bind_post; [by rewrite index_heap | intros ? _; rewrite index_heap].
  apply bind_post; [by rewrite get_heap | intros endTime _; rewrite get_heap].
  set (l := fresh (dom h)).
  assert (h !! l = None) as Hl by apply not_elem_of_dom, is_fresh.
  assert (h0 !! l = None) as Hl0 by (by eapply lookup_weaken_None).
  assert (l <> lw) as Hne by congruence.
  rewrite (bind_Done _ _ _ _ _ (eq_refl : Store.alloc _ h = (Store.Done l, _))).
  fold l. set (h1 := <[l := _]> h).
  assert (h0 ⊆ h1) as Hsub1 by (by apply insert_subseteq_r).
  assert (h1 !! lw = Some (Store.Obj wprops)) as Hlw1
    by (unfold h1; by rewrite lookup_insert_ne).
  pose proof (forEach_touched l i elements h1) as Ht.
  set (h2 := (Store.forEach elements (Store.forEach_body l i) h1).2) in *.
  assert (h0 ⊆ h2) as Hsub2 by (by eapply touched_subseteq).
  assert (h2 !! lw = Some (Store.Obj wprops)) as Hlw2
    by (by rewrite (touched_lookup _ _ _ _ Ht)).
  apply bind_post; [done|]. intros _ _. fold h2.
  rewrite (bind_Done _ _ _ _ _ (get_Obj _ _ _ "forecasts" Hlw2)), Hfs. simpl.
  unfold Store.push.
  destruct (h2 !! lfs) as [[props|items]|] eqn:Hl'; simpl; [done| |done].
  split.
  - by apply insert_subseteq_r.
  - rewrite lookup_insert_ne by congruence. done.
Qed.

Lemma for_loop_frame h0 lw wprops lfs elements todo : forall i h,
  own_property wprops "forecasts" = Some (Store.VRef lfs) ->
  h0 !! lfs = None ->
  h0 ⊆ h -> h !! lw = Some (Store.Obj wprops) ->
  h0 ⊆ (Store.for_loop lw elements todo i h).2.
Proof.
  induction todo as [|todo IH]; intros i h Hfs Hlfs0 Hsub Hlw; simpl; [done|].
  destruct (loop_body_frame h0 lw wprops lfs elements i h Hfs Hlfs0 Hsub Hlw)
    as [Hsub' Hlw'].
  apply bind_post; [done|]. intros _ _. by apply IH.
Qed.

(** Whatever the store holds and whatever [response] is, the objects
    the store held at the call are the same when the transform ends. *)
Lemma normalize_frame h response cityName :
  h ⊆ (Store.normalize response cityName h).2.
Proof.
  unfold Store.normalize.
  apply bind_post; [by rewrite get_heap | intros ? _; rewrite get_heap].
  apply bind_post; [by rewrite get_heap | intros ? _; rewrite get_heap].
  apply bind_post; [by rewrite get_heap | intros ? _; rewrite get_heap].
  apply bind_post; [by rewrite index_heap | intros locationData _; rewrite index_heap].
  destruct (negb (Store.truthy locationData)); [done|].
  apply bind_post; [by rewrite get_heap | intros city _; rewrite get_heap].
  apply bind_post; [by rewrite get_heap | intros ? _; rewrite get_heap].
  apply bind_post; [by rewrite get_heap | intros ? _; rewrite get_heap].
  apply bind_post; [by rewrite get_heap | intros updateTime _; rewrite get_heap].
  set (lfs := fresh (dom h)).
  assert (h !! lfs = None) as Hlfs by apply not_elem_of_dom, is_fresh.
  rewrite (bind_Done _ _ _ _ _ (eq_refl : Store.alloc _ h = (Store.Done lfs, _))).
  fold lfs. set (h1 := <[lfs := _]> h).
  set (lw := fresh (dom h1)).
  assert (h1 !! lw = None) as Hlw by apply not_elem_of_dom, is_fresh.
  rewrite (bind_Done _ _ _ _ _ (eq_refl : Store.alloc _ h1 = (Store.Done lw, _))).
  fold lw.
  set (wprops := [ ("city", city); ("updateTime", updateTime);
                   ("forecasts", Store.VRef lfs) ]).
  set (h2 := <[lw := Store.Obj wprops]> h1).
  assert (h ⊆ h2) as Hsub.
  { apply insert_subseteq_r; [by eapply lookup_weaken_None, insert_subseteq|].
    by apply insert_subseteq. }
  apply bind_post; [by rewrite get_heap | intros weatherElements _; rewrite get_heap].
  apply bind_post; [by rewrite index_heap | intros ? _; rewrite index_heap].
  apply bind_post; [by rewrite get_heap | intros ? _; rewrite get_heap].
  apply bind_post; [by rewrite length_of_heap
                   | intros timeCount _; rewrite length_of_heap].
  assert (h ⊆ (Store.for_loop lw weatherElements timeCount 0 h2).2) as Hloop.
  { apply (for_loop_frame h lw wprops lfs); try done.
    unfold h2. by rewrite lookup_insert_eq. }
  apply bind_post; [done|]. by intros _ _.
Qed.

(** C6: run on a store, the transform leaves every object the store
    held at the call as it was, the first time and when run again on
    the store the first run left; and when the store holds a document,
    each of the two runs returns what the function [normalize] of that
    document and the requested name returns, so the same value twice,
    the document being still in the store afterwards. *)
Theorem normalize_twice h response cityName :
  let first := Store.normalize response cityName h in
  let second := Store.normalize response cityName first.2 in
  (forall l o, h !! l = Some o -> first.2 !! l = Some o /\ second.2 !! l = Some o)
  /\ (forall d,
        Store.represents h response d ->
        Store.read_result first = Some (normalize d cityName)
        /\ Store.read_result second = Store.read_result first
        /\ Store.represents second.2 response d).
Proof.
  intros first second.
  pose proof (normalize_frame h response cityName) as Hsub1.
  pose proof (normalize_frame first.2 response cityName) as Hsub2.
  fold first in Hsub1. fold second in Hsub2.
  split.
  - intros l o Hl. split.
    + by eapply lookup_weaken.
    + eapply lookup_weaken; [|exact Hsub2]. by eapply lookup_weaken.
  - intros d Hrep.
    destruct (sim_normalize h response d cityName Hrep) as [_ Hread1].
    assert (Store.represents first.2 response d) as Hrep1
      by (by eapply represents_mono).
    destruct (sim_normalize first.2 response d cityName Hrep1) as [_ Hread2].
    fold first in Hread1. fold second in Hread2.
    split; [done|]. split; [congruence|]. by eapply represents_mono.
Qed.

Lemma represents_rain_only :
  Store.represents Store.rain_store (Store.VRef 1%positive) rain_only.
Proof.
  do 7 eexists. split_and!; try reflexivity.
  do 2 eexists. split_and!; try reflexivity.
  constructor; [|constructor].
  do 3 eexists. split_and!; try reflexivity.
  do 2 eexists. split_and!; try reflexivity.
  constructor; [|constructor].
  do 3 eexists. split_and!; try reflexivity.
  do 2 eexists. split_and!; try reflexivity.
  constructor; [|constructor].
  do 4 eexists. split_and!; reflexivity.
Defined.

Lemma normalize_twice_witness :
  let first := Store.normalize (Store.VRef 1%positive) (JsString "臺北市")
                 Store.rain_store in
  let second := Store.normalize (Store.VRef 1%positive) (JsString "臺北市") first.2 in
  Store.read_result first = Some (normalize rain_only (JsString "臺北市"))
  /\ Store.read_result second = Store.read_result first
  /\ Store.represents second.2 (Store.VRef 1%positive) rain_only.
Proof.
  exact (proj2 (normalize_twice Store.rain_store (Store.VRef 1%positive)
                  (JsString "臺北市"))
           rain_only represents_rain_only).
Defined.

(** The two runs on [Store.rain_store], evaluated: the second
    [weatherData] is another object of the store with the same content. *)
Example normalize_twice_rain_store :
  let first := Store.normalize (Store.VRef 1%positive) (JsString "臺北市")
                 Store.rain_store in
  let second := Store.normalize (Store.VRef 1%positive) (JsString "臺北市") first.2 in
  first.1 = Store.Done (inl 12%positive)
  /\ second.1 = Store.Done (inl 15%positive)
  /\ Store.read_weatherData second.2 12%positive
     = Some {| city := "臺北市"; updateTime := "三十六小時天氣預報";
               forecasts :=
                 [ {| startTime := "2024-01-01T00:00"; endTime := "2024-01-01T06:00";
                      weather := ""; rain := "10%"; minTemp := ""; maxTemp := "";
                      comfort := ""; windSpeed := "" |} ] |}
  /\ Store.read_weatherData second.2 15%positive
     = Store.read_weatherData second.2 12%positive.
Proof. vm_compute. by split_and!. Qed.

(** * Further properties of the handlers *)

(** ** When the transform returns and when it throws *)

Lemma bind_Throw {A B} (c : Completion A) (k : A -> Completion B) e :
  bind c k = Throw e ->
  c = Throw e \/ exists a, c = Normal a /\ k a = Throw e.
Proof. destruct c as [a|e']; simpl; [eauto | intros [= ->]; by left]. Qed.

Lemma forEach_Throw i elements : forall f e,
  forEach i elements f = Throw e ->
  e = TypeError "parameter" /\
  exists element, element ∈ elements /\ Raw.time element !! i = None.
Proof.
  induction elements as [|element rest IH]; simpl; intros f e H; [discriminate|].
  apply bind_Throw in H as [H|(f1 & _ & H)].
  - unfold forEach_body in H.
    destruct (Raw.time element !! i) as [s|] eqn:Hs; simpl in H; [discriminate|].
    inversion H. split; [done|]. exists element. split; [left|done].
  - apply IH in H as (-> & short & Hin & Hs).
    split; [done|]. exists short. split; [by right|done].
Qed.

Lemma for_loop_Throw elements todo : forall i pushed e,
  for_loop elements todo i pushed = Throw e ->
  exists k, k < todo /\ loop_body elements (i + k) = Throw e.
Proof.
  induction todo as [|todo IH]; simpl; intros i pushed e H; [discriminate|].
  apply bind_Throw in H as [H|(f & _ & H)].
  - exists 0. split; [lia|]. by rewrite Nat.add_0_r.
  - apply IH in H as (k & Hk & H). exists (S k). split; [lia|].
    by replace (i + S k) with (S i + k) by lia.
Qed.

(** X1: on a document with a location record, the transform returns a
    forecast exactly when the record has a first weather element and
    no element has fewer time slots than it. *)
Theorem normalize_returns_iff data cityName locationData rest :
  Raw.location (Raw.records data) = locationData :: rest ->
  (exists weatherData, normalize data cityName = Normal (inl weatherData)) <->
  (exists first others,
     Raw.weatherElement locationData = first :: others /\
     Forall (fun e => length (Raw.time first) <= length (Raw.time e))
       (first :: others)).
Proof.
  intros Hl. split.
  - intros [w Hw].
    destruct (normalize_Normal _ _ _ _ _ Hl Hw) as (first & H0 & _ & _ & Hlen & Hfs).
    destruct (Raw.weatherElement locationData) as [|first' others] eqn:He;
      [done|].
    simpl in H0. inversion H0; subst first'. exists first, others. split; [done|].
    destruct (length (Raw.time first)) as [|n] eqn:Hn.
    { apply Forall_forall. intros; lia. }
    destruct (lookup_lt_is_Some_2 (forecasts w) n) as [f Hf]; [lia|].
    apply Hfs, loop_body_Normal in Hf as (first' & s & _ & _ & Hin).
    apply forEach_in_bounds in Hin.
    eapply Forall_impl; [exact Hin|]. simpl. intros; lia.
  - intros (first & others & He & Hall). by eapply normalize_total.
Qed.

Lemma normalize_returns_iff_witness :
  (exists weatherData,
     normalize cloudy_then_rainy (JsString "臺北市") = Normal (inl weatherData)) <->
  (exists first others,
     [ {| Raw.elementName := "Wx";
          Raw.time := [ slot "2024-01-01T00:00" "2024-01-01T06:00" "Cloudy";
                        slot "2024-01-01T06:00" "2024-01-01T12:00" "Rainy" ] |};
       {| Raw.elementName := "PoP";
          Raw.time := [ slot "2024-01-01T00:00" "2024-01-01T06:00" "10";
                        slot "2024-01-01T06:00" "2024-01-01T12:00" "80" ] |} ]
     = first :: others /\
     Forall (fun e => length (Raw.time first) <= length (Raw.time e))
       (first :: others)).
Proof.
  exact (normalize_returns_iff cloudy_then_rainy (JsString "臺北市") _ _ eq_refl).
Defined.

(** X2: the transform throws in two cases only: reading [time] of a
    first weather element that is not there, and reading [parameter]
    of a slot that an element other than the first lacks; the read of
    [startTime] never throws. *)
Theorem normalize_throws data cityName e :
  normalize data cityName = Throw e ->
  exists locationData rest,
    Raw.location (Raw.records data) = locationData :: rest /\
    ((e = TypeError "time" /\ Raw.weatherElement locationData = []) \/
     (e = TypeError "parameter" /\
      exists first others short,
        Raw.weatherElement locationData = first :: others /\
        short ∈ others /\
        length (Raw.time short) < length (Raw.time first))).
Proof.
  unfold normalize. intros H.
  destruct (Raw.location (Raw.records data)) as [|locationData rest]; [discriminate|].
  exists locationData, rest. split; [done|]. simpl in H.
  destruct (Raw.weatherElement locationData) as [|first others] eqn:He; simpl in H.
  { inversion H. by left. }
  right.
  apply bind_Throw in H as [H|(pushed & _ & H)]; [|discriminate].
  apply for_loop_Throw in H as (k & Hk & H). simpl in H.
  unfold loop_body in H. simpl in H.
  destruct (lookup_lt_is_Some_2 (Raw.time first) k Hk) as [s Hs].
  rewrite Hs in H. simpl in H.
  apply (forEach_Throw k (first :: others)) in H as (-> & short & Hin & Hshort).
  split; [done|]. exists first, others, short. split; [done|].
  apply elem_of_cons in Hin as [->|Hin]; [congruence|].
  split; [done|]. apply lookup_ge_None in Hshort. lia.
Qed.

Lemma normalize_throws_witness :
  exists locationData rest,
    Raw.location (Raw.records missing_slot) = locationData :: rest /\
    ((TypeError "parameter" = TypeError "time" /\
      Raw.weatherElement locationData = []) \/
     (TypeError "parameter" = TypeError "parameter" /\
      exists first others short,
        Raw.weatherElement locationData = first :: others /\
        short ∈ others /\
        length (Raw.time short) < length (Raw.time first))).
Proof.
  exact (normalize_throws missing_slot (JsString "臺北市") (TypeError "parameter")
           eq_refl).
Defined.

(** ** What the transform looks at *)

Lemma forEach_trim n i elements : forall f,
  i < n ->
  forEach i (map (trim_element n) elements) f = forEach i elements f.
Proof.
  induction elements as [|element rest IH]; simpl; intros f Hi; [done|].
  assert (forEach_body i f (trim_element n element) = forEach_body i f element)
    as -> by (unfold forEach_body; simpl; by rewrite lookup_take_lt).
  destruct (forEach_body i f element) as [f'|e]; simpl; [by apply IH | done].
Qed.

Lemma for_loop_ext elements elements' todo : forall i pushed,
  (forall k, k < todo -> loop_body elements' (i + k) = loop_body elements (i + k)) ->
  for_loop elements' todo i pushed = for_loop elements todo i pushed.
Proof.
  induction todo as [|todo IH]; simpl; intros i pushed H; [done|].
  pose proof (H 0 ltac:(lia)) as H0. rewrite Nat.add_0_r in H0. rewrite H0.
  destruct (loop_body elements i) as [f|e]; simpl; [|done].
  apply IH. intros k Hk. specialize (H (S k) ltac:(lia)).
  by replace (S i + k) with (i + S k) by lia.
Qed.

(** X3: the transform looks at the first location record only, at the
    slots below the first element's slot count only, and, once there is
    a record, not at the requested name: on the document cut down to
    these it returns, or throws, the same, whatever name is passed. *)
Theorem normalize_visited data cityName cityName' locationData rest :
  Raw.location (Raw.records data) = locationData :: rest ->
  normalize (visited data) cityName' = normalize data cityName.
Proof.
  intros Hl. unfold normalize, visited. rewrite Hl. simpl.
  destruct (Raw.weatherElement locationData) as [|first others]; simpl; [done|].
  set (n := length (Raw.time first)).
  rewrite take_ge by done. fold n.
  rewrite (for_loop_ext (first :: others)
             (trim_element n first :: map (trim_element n) others)); [done|].
  intros k Hk. unfold loop_body. simpl. rewrite lookup_take_lt by done.
  destruct (Raw.time first !! k) as [s|]; simpl; [|done].
  change (forEach k (map (trim_element n) (first :: others)) (new_forecast s)
          = forEach k (first :: others) (new_forecast s)).
  by apply forEach_trim.
Qed.

Lemma normalize_visited_witness :
  normalize (visited two_records) (JsString "新北市")
  = normalize two_records (JsString "臺北市").
Proof.
  exact (normalize_visited two_records (JsString "臺北市") (JsString "新北市")
           _ _ eq_refl).
Defined.

(** ** The answers of [getCityWeather] *)

(** [getCityWeather] once the key is set: the log line and the request
    go out, then the answer depends on what upstream and the transform
    give. *)
Lemma getCityWeather_with_key key upstream cityName p :
  truthy (env_value key) = true ->
  let asked :=
    {| table := table p;
       trace := trace p
                ++ [ console_log ("📡 正在取得 " +:+ ToString cityName +:+ " 的天氣資料...");
                     axios_get dataset_url (ToString (env_value key)) cityName ] |} in
  getCityWeather key upstream cityName p
  = match upstream dataset_url (ToString (env_value key)) cityName with
    | inr (message, error_response) =>
        catch cityName (CaughtAxios message error_response) asked
    | inl data =>
        match normalize data cityName with
        | Throw e => catch cityName (CaughtThrown e) asked
        | Normal (inr not_found) =>
            ({| status := 404;
                body := JsonError (error not_found) (message not_found) |}, asked)
        | Normal (inl weatherData) =>
            ({| status := 200; body := JsonSuccess true weatherData |},
             {| table := table p;
                trace := trace asked
                         ++ [ console_log ("✅ " +:+ ToString cityName
                                           +:+ " 天氣資料取得成功") ] |})
        end
    end.
Proof.
  intros Hkey. unfold getCityWeather, await_axios_get, io_bind, emit, io_ret.
  rewrite Hkey. simpl. rewrite <- app_assoc. simpl.
  fold dataset_url.
  destruct (upstream _ _ _) as [data|[m r]]; [|done].
  by destruct (normalize data cityName) as [[w|nf]|e].
Qed.

Lemma catch_result cityName caught p :
  catch cityName caught p
  = (match caught with
     | CaughtAxios _ (Some response) =>
         {| status := response_status response;
            body := JsonUpstreamError "CWA API 錯誤"
                      (or_default (response_data_message response) "無法取得天氣資料")
                      (response_data response) |}
     | _ => server_error
     end,
     {| table := table p;
        trace := trace p
                 ++ [ console_error ("❌ 取得" +:+ ToString cityName +:+ "天氣資料失敗:")
                        caught ] |}).
Proof. unfold catch, io_bind, emit, io_ret. by destruct caught as [e|m [r|]]. Qed.


(** X4: with the key set, the answer of [getCityWeather] carries a
    forecast exactly when upstream answered the request for this name
    and key with a document the transform returns a forecast for; the
    forecast is then the transform's, the status is 200, and the trace
    gains the log line, the request and the line of success, in this
    order. *)
Theorem getCityWeather_success_iff key upstream cityName p weatherData :
  truthy (env_value key) = true ->
  (body (getCityWeather key upstream cityName p).1 = JsonSuccess true weatherData
   <-> exists data,
         upstream dataset_url (ToString (env_value key)) cityName = inl data /\
         normalize data cityName = Normal (inl weatherData))
  /\ (body (getCityWeather key upstream cityName p).1 = JsonSuccess true weatherData ->
      getCityWeather key upstream cityName p
      = ({| status := 200; body := JsonSuccess true weatherData |},
         {| table := table p;
            trace := trace p
                     ++ [ console_log ("📡 正在取得 " +:+ ToString cityName
                                       +:+ " 的天氣資料...");
                          axios_get dataset_url (ToString (env_value key)) cityName;
                          console_log ("✅ " +:+ ToString cityName
                                       +:+ " 天氣資料取得成功") ] |})).
Proof.
  intros Hkey. rewrite (getCityWeather_with_key _ _ _ _ Hkey). simpl.
  destruct (upstream _ _ _) as [data|[m r]].
  - destruct (normalize data cityName) as [[w|nf]|e] eqn:Hn; simpl.
    + split.
      * split; [intros [= ->]; eauto | intros (d & [= <-] & Hd); congruence].
      * intros [= ->]. by rewrite <- app_assoc.
    + split; [|done]. split; [done|]. intros (d & [= <-] & Hd). congruence.
    + rewrite catch_result. simpl.
      split; [|done]. split; [done|]. intros (d & [= <-] & Hd). congruence.
  - rewrite catch_result. split.
    + split; [by destruct r | intros (d & Hd & _); discriminate].
    + by destruct r.
Qed.

Lemma getCityWeather_success_iff_witness :
  body (getCityWeather (Some "key") (fun _ _ _ => inl rain_only)
          (JsString "臺北市") boot).1
  = JsonSuccess true
      {| city := "臺北市"; updateTime := "三十六小時天氣預報";
         forecasts :=
           [ {| startTime := "2024-01-01T00:00"; endTime := "2024-01-01T06:00";
                weather := ""; rain := "10%"; minTemp := ""; maxTemp := "";
                comfort := ""; windSpeed := "" |} ] |}.
Proof.
  apply (proj1 (getCityWeather_success_iff (Some "key") (fun _ _ _ => inl rain_only)
                  (JsString "臺北市") boot _ eq_refl)).
  exists rain_only. split; reflexivity.
Defined.



(** ** Upstream requests *)

Lemma upstream_calls_app events events' :
  upstream_calls (events ++ events') = upstream_calls events ++ upstream_calls events'.
Proof. apply List.filter_app. Qed.


(** X6: a call of [getCityWeather] sends upstream one request when the
    key is set, for the dataset address with the key and the name it
    was called with, and none when it is not; it sends none again
    whatever upstream answers, and keeps what the trace held. *)
Theorem getCityWeather_calls_upstream_once key upstream cityName p :
  upstream_calls (trace (getCityWeather key upstream cityName p).2)
  = upstream_calls (trace p)
    ++ (if truthy (env_value key)
        then [axios_get dataset_url (ToString (env_value key)) cityName]
        else [])
  /\ exists new, trace (getCityWeather key upstream cityName p).2 = trace p ++ new.
Proof.
  destruct (truthy (env_value key)) eqn:Hkey.
  - rewrite (getCityWeather_with_key _ _ _ _ Hkey). cbv zeta.
    destruct (upstream _ _ _) as [data|[m r]]; rewrite ?catch_result.
    + destruct (normalize data cityName) as [[w|nf]|e]; rewrite ?catch_result; simpl;
        rewrite ?upstream_calls_app; simpl; rewrite ?app_nil_r, <- ?app_assoc;
        split; eauto.
    + simpl. rewrite !upstream_calls_app. simpl. rewrite app_nil_r, <- app_assoc.
      split; eauto.
  - unfold getCityWeather. rewrite Hkey. simpl. rewrite app_nil_r.
    split; [done|]. exists []. by rewrite app_nil_r.
Qed.







(** ** Runs without the key *)




(** ** The per-city route and the codes of the table *)


Lemma resolves_key code name :
  (code, name) ∈ CITY_MAP ->
  get_property CITY_MAP code = JsString name /\ truthy (JsString name) = true
  /\ toLowerCase code = code.
Proof.
  unfold CITY_MAP. intros H.
  repeat (apply elem_of_cons in H as [[= -> ->]|H]; [by split_and!|]).
  by apply elem_of_nil in H.
Qed.

(** X9: from a process that holds the table, each of its 22 codes,
    written in any mix of letter case, is taken to [getCityWeather]
    with the name the table gives for it. *)
Theorem weather_route_resolves_keys key upstream code name city p :
  table p = CITY_MAP ->
  (code, name) ∈ CITY_MAP ->
  toLowerCase city = code ->
  weather_route key upstream city p = getCityWeather key upstream (JsString name) p.
Proof.
  intros Ht Hin Hcity. destruct (resolves_key _ _ Hin) as (Hget & Htruthy & _).
  unfold weather_route, io_bind, CITY_MAP_get. rewrite Ht, Hcity, Hget.
  simpl in *. by rewrite Htruthy.
Qed.

Lemma weather_route_resolves_keys_witness :
  weather_route (Some "key") (fun _ _ _ => inl rain_only) "Hsinchu-City" boot
  = getCityWeather (Some "key") (fun _ _ _ => inl rain_only) (JsString "新竹市") boot.
Proof.
  apply (weather_route_resolves_keys (Some "key") (fun _ _ _ => inl rain_only)
           "hsinchu-city" "新竹市" "Hsinchu-City" boot eq_refl); [|reflexivity].
  unfold CITY_MAP. do 7 right. left.
Defined.




(** X11: after any run of requests from start-up, the root route
    lists the 22 codes of the table with their count, the health route
    gives the same count, neither logs or asks upstream, and every code
    the root route lists is one the weather route takes to
    [getCityWeather] with its name. *)
Theorem advertised_codes_are_served key upstream reqs key' upstream' now :
  let p := (serve key upstream reqs boot).2 in
  handle key' upstream' now GET_root p
  = ({| status := 200;
        body := JsonRoot "🌤️ 歡迎使用 CWA 天氣預報 API" (Object_keys CITY_MAP)
                  (length (Object_keys CITY_MAP)) |}, p)
  /\ handle key' upstream' now GET_health p
     = ({| status := 200;
           body := JsonHealth "OK" now (length (Object_keys CITY_MAP)) |}, p)
  /\ forall code,
       code ∈ Object_keys CITY_MAP ->
       exists name,
         (code, name) ∈ CITY_MAP /\
         weather_route key' upstream' code p
         = getCityWeather key' upstream' (JsString name) p.
Proof.
  intros p. assert (table p = CITY_MAP) as Ht by apply serve_table.
  split_and!.
  - simpl. unfold io_bind, CITY_MAP_keys, io_ret. by rewrite Ht.
  - simpl. unfold io_bind, CITY_MAP_keys, io_ret. by rewrite Ht.
  - intros code Hin. unfold Object_keys in Hin.
    apply list_elem_of_fmap in Hin as ([code' name] & -> & Hin). simpl.
    exists name. split; [done|].
    destruct (resolves_key _ _ Hin) as (Hget & Htruthy & Hlow).
    unfold weather_route, io_bind, CITY_MAP_get. rewrite Ht, Hlow, Hget.
    simpl in *. by rewrite Htruthy.
Qed.

(** ** The objects the transform makes *)

Lemma bind_Done_inv {A B} (m : Store.Run A) (k : A -> Store.Run B) h b h'' :
  Store.bind m k h = (Store.Done b, h'') ->
  exists a h', m h = (Store.Done a, h') /\ k a h' = (Store.Done b, h'').
Proof.
  unfold Store.bind. destruct (m h) as [[a|e|] h'] eqn:Hm; [eauto|done..].
Qed.

(** Undoes a reading step of a run that ended well. *)
Tactic Notation "undo_read" hyp(H) constr(lem) ident(x) :=
  let h' := fresh "h'" in
  let Hm := fresh "Hm" in
  apply bind_Done_inv in H as (x & h' & Hm & H);
  apply (f_equal snd) in Hm; simpl in Hm; rewrite lem in Hm; subst h'.

Lemma touched_is_Some l h h' l' :
  Store.touched l h h' -> is_Some (h !! l') -> is_Some (h' !! l').
Proof.
  intros [->|[o ->]] H; [done|].
  destruct (decide (l = l')) as [->|Hne];
    [by rewrite lookup_insert_eq | by rewrite lookup_insert_ne].
Qed.

Lemma insert_is_Some (h : Store.heap) l o l' :
  is_Some (h !! l') -> is_Some (<[l := o]> h !! l').
Proof. apply (touched_is_Some l). right. eauto. Qed.

Lemma loop_body_Done h0 lw wprops lfs elements i h h' :
  own_property wprops "forecasts" = Some (Store.VRef lfs) ->
  h0 ⊆ h ->
  h !! lw = Some (Store.Obj wprops) ->
  holds_new_objects h0 h lfs ->
  Store.loop_body lw elements i h = (Store.Done tt, h') ->
  h' !! lw = Some (Store.Obj wprops) /\ holds_new_objects h0 h' lfs.
Proof.
  intros Hfs Hsub Hlw (items & Hlfs & Hitems) H. unfold Store.loop_body in H.
  undo_read H index_heap e0. undo_read H get_heap time.
  undo_read H index_heap s. undo_read H get_heap startTime.
  undo_read H index_heap e1. undo_read H get_heap time'.
  undo_read H index_heap s'. undo_read H get_heap endTime.
  apply bind_Done_inv in H as (l & h1 & Halloc & H).
  unfold Store.alloc in Halloc. inversion Halloc as [[Hl Hh1]]; clear Halloc.
  assert (h !! l = None) as Hfresh by (subst l; apply not_elem_of_dom, is_fresh).
  rewrite Hl in Hh1.
  apply bind_Done_inv in H as ([] & h2 & Heach & H).
  pose proof (forEach_touched l i elements h1) as Ht. rewrite Heach in Ht.
  simpl in Ht.
  assert (h2 !! lw = Some (Store.Obj wprops)) as Hlw2.
  { rewrite (touched_lookup _ _ _ _ Ht) by congruence.
    subst h1. by rewrite lookup_insert_ne by congruence. }
  assert (h2 !! lfs = Some (Store.Arr items)) as Hlfs2.
  { rewrite (touched_lookup _ _ _ _ Ht) by congruence.
    subst h1. by rewrite lookup_insert_ne by congruence. }
  rewrite (bind_Done _ _ _ _ _ (get_Obj _ _ _ "forecasts" Hlw2)), Hfs in H.
  simpl in H. rewrite Hlfs2 in H. inversion H; subst h'; clear H.
  split.
  - rewrite lookup_insert_ne by congruence. done.
  - exists (items ++ [Store.VRef l]). split; [by rewrite lookup_insert_eq|].
    apply Forall_app. split.
    + eapply Forall_impl; [exact Hitems|]. simpl.
      intros v (l' & -> & Hnew & Hsome). exists l'. split_and!; [done..|].
      apply insert_is_Some, (touched_is_Some _ _ _ _ Ht).
      subst h1. by apply insert_is_Some.
    + constructor; [|constructor]. exists l. split_and!; [done| |].
      * by eapply lookup_weaken_None.
      * apply insert_is_Some, (touched_is_Some _ _ _ _ Ht).
        subst h1. rewrite lookup_insert_eq. eauto.
Qed.

Lemma for_loop_Done h0 lw wprops lfs elements todo : forall i h h',
  own_property wprops "forecasts" = Some (Store.VRef lfs) ->
  h0 !! lfs = None ->
  h0 ⊆ h ->
  h !! lw = Some (Store.Obj wprops) ->
  holds_new_objects h0 h lfs ->
  Store.for_loop lw elements todo i h = (Store.Done tt, h') ->
  h' !! lw = Some (Store.Obj wprops) /\ holds_new_objects h0 h' lfs.
Proof.
  induction todo as [|todo IH]; simpl; intros i h h' Hfs Hlfs0 Hsub Hlw Hnew H.
  - inversion H; subst h'. done.
  - apply bind_Done_inv in H as ([] & h1 & Hbody & H).
    destruct (loop_body_frame h0 lw wprops lfs elements i h Hfs Hlfs0 Hsub Hlw)
      as [Hsub1 _].
    rewrite Hbody in Hsub1. simpl in Hsub1.
    destruct (loop_body_Done h0 lw wprops lfs elements i h h1 Hfs Hsub Hlw Hnew Hbody)
      as [Hlw1 Hnew1].
    by eapply IH.
Qed.

Lemma normalize_Done h response cityName weatherData h' :
  Store.normalize response cityName h = (Store.Done (inl weatherData), h') ->
  h !! weatherData = None /\
  exists city updateTime forecasts,
    h' !! weatherData
    = Some (Store.Obj [ ("city", city); ("updateTime", updateTime);
                        ("forecasts", Store.VRef forecasts) ]) /\
    forecasts <> weatherData /\
    h !! forecasts = None /\
    holds_new_objects h h' forecasts.
Proof.
  unfold Store.normalize. intros H.
  undo_read H get_heap data. undo_read H get_heap records.
  undo_read H get_heap location. undo_read H index_heap locationData.
  destruct (negb (Store.truthy locationData)); [discriminate|].
  undo_read H get_heap city. undo_read H get_heap data'.
  undo_read H get_heap records'. undo_read H get_heap updateTime.
  apply bind_Done_inv in H as (lfs & h1 & Halloc & H).
  unfold Store.alloc in Halloc. inversion Halloc as [[Hlfs Hh1]]; clear Halloc.
  assert (h !! lfs = None) as Hfresh by (subst lfs; apply not_elem_of_dom, is_fresh).
  rewrite Hlfs in Hh1.
  apply bind_Done_inv in H as (lw & h2 & Halloc & H).
  unfold Store.alloc in Halloc. inversion Halloc as [[Hlw Hh2]]; clear Halloc.
  assert (h1 !! lw = None) as Hfresh1 by (subst lw; apply not_elem_of_dom, is_fresh).
  rewrite Hlw in Hh2.
  assert (lfs <> lw) as Hne.
  { intros ->. subst h1. by rewrite lookup_insert_eq in Hfresh1. }
  assert (h !! lw = None) as Hfresh2.
  { subst h1. by rewrite lookup_insert_ne in Hfresh1. }
  undo_read H get_heap weatherElements. undo_read H index_heap e0.
  undo_read H get_heap time. undo_read H length_of_heap timeCount.
  apply bind_Done_inv in H as ([] & h3 & Hloop & H).
  inversion H; subst weatherData h3; clear H.
  set (wprops := [ ("city", city); ("updateTime", updateTime);
                   ("forecasts", Store.VRef lfs) ]) in *.
  destruct (for_loop_Done h lw wprops lfs weatherElements timeCount 0 h2 h')
    as [Hlw' Hnew]; try done.
  - subst h2 h1. apply insert_subseteq_r; [done|]. by apply insert_subseteq.
  - subst h2. by rewrite lookup_insert_eq.
  - exists []. split; [|constructor].
    subst h2 h1. rewrite lookup_insert_ne by done. by rewrite lookup_insert_eq.
  - split; [done|]. exists city, updateTime, lfs. by split_and!.
Qed.

(** X12: whatever the store holds, when the transform returns a
    forecast it returns an object the store did not hold at the call,
    whose [forecasts] is an array the store did not hold either, of
    references to objects the store did not hold: the answer is made of
    objects of its own.  A later run, on whatever request, returns
    another object and leaves this one as it is. *)
Theorem normalize_returns_new_objects h response cityName weatherData h' :
  Store.normalize response cityName h = (Store.Done (inl weatherData), h') ->
  (h !! weatherData = None /\
   exists city updateTime forecasts,
     h' !! weatherData
     = Some (Store.Obj [ ("city", city); ("updateTime", updateTime);
                         ("forecasts", Store.VRef forecasts) ]) /\
     forecasts <> weatherData /\
     h !! forecasts = None /\
     holds_new_objects h h' forecasts)
  /\ (forall response' cityName' weatherData' h'',
        Store.normalize response' cityName' h' = (Store.Done (inl weatherData'), h'') ->
        weatherData' <> weatherData /\
        h'' !! weatherData = h' !! weatherData).
Proof.
  intros H. pose proof (normalize_Done _ _ _ _ _ H) as Hnew.
  split; [exact Hnew|].
  destruct Hnew as (_ & city & updateTime & forecasts & Hw & _).
  intros response' cityName' weatherData' h'' H'.
  destruct (normalize_Done _ _ _ _ _ H') as (Hfresh & _).
  split; [congruence|].
  pose proof (normalize_frame h' response' cityName') as Hsub.
  rewrite H' in Hsub. simpl in Hsub.
  rewrite Hw. by eapply lookup_weaken.
Qed.

Lemma normalize_returns_new_objects_witness :
  Store.rain_store !! 12%positive = None.
Proof.
  exact (proj1 (proj1 (normalize_returns_new_objects Store.rain_store
                         (Store.VRef 1%positive) (JsString "臺北市") 12%positive _
                         eq_refl))).
Defined.

(** ** The order of the weather elements *)

Lemma switch_comm name1 name2 value1 value2 f :
  name1 <> name2 ->
  switch_elementName name1 value1 (switch_elementName name2 value2 f)
  = switch_elementName name2 value2 (switch_elementName name1 value1 f).
Proof.
  intros Hne. unfold switch_elementName.
  repeat match goal with
  | |- context [String.eqb ?n ?lit] =>
      destruct (String.eqb_spec n lit)
  end; try reflexivity; congruence.
Qed.

Lemma forEach_body_swap i f x y :
  Raw.elementName x <> Raw.elementName y ->
  bind (forEach_body i f y) (fun f1 => forEach_body i f1 x)
  = bind (forEach_body i f x) (fun f1 => forEach_body i f1 y).
Proof.
  intros Hne. unfold forEach_body.
  destruct (Raw.time x !! i) as [sx|], (Raw.time y !! i) as [sy|]; simpl;
    try reflexivity.
  by rewrite switch_comm.
Qed.

Lemma forEach_cons2 i f x y rest :
  forEach i (x :: y :: rest) f
  = bind (bind (forEach_body i f x) (fun f1 => forEach_body i f1 y))
      (fun f2 => forEach i rest f2).
Proof. simpl. by destruct (forEach_body i f x). Qed.

Lemma forEach_Permutation i elements elements' :
  elements ≡ₚ elements' ->
  NoDup (map Raw.elementName elements) ->
  forall f, forEach i elements f = forEach i elements' f.
Proof.
  induction 1 as [|x l l' Hp IH|x y l|l l' l'' Hp IH Hp' IH']; intros Hnd f.
  - done.
  - simpl. destruct (forEach_body i f x); simpl; [|done].
    apply IH. simpl in Hnd. by apply NoDup_cons in Hnd as [_ ?].
  - rewrite !forEach_cons2. rewrite forEach_body_swap; [done|].
    simpl in Hnd. apply NoDup_cons in Hnd as [Hin _].
    intros Heq. apply Hin. rewrite Heq. left.
  - rewrite IH by done. apply IH'.
    assert (map Raw.elementName l ≡ₚ map Raw.elementName l') as Hmap
      by (by apply Permutation_map).
    by rewrite <- Hmap.
Qed.

(** X13: when the weather elements of the record have pairwise
    distinct names, the order of the elements after the first makes no
    difference: the transform returns the same forecast, or throws the
    same error, for every rearrangement of them. *)
Theorem normalize_order_of_elements description name first others others' cityName :
  others ≡ₚ others' ->
  NoDup (map Raw.elementName (first :: others)) ->
  normalize (document description name (first :: others')) cityName
  = normalize (document description name (first :: others)) cityName.
Proof.
  intros Hp Hnd. unfold normalize, document. simpl.
  rewrite (for_loop_ext (first :: others) (first :: others')); [done|].
  intros k _. unfold loop_body. simpl.
  destruct (Raw.time first !! k) as [s|]; simpl; [|done].
  change (forEach k (first :: others') (new_forecast s)
          = forEach k (first :: others) (new_forecast s)).
  symmetry. apply forEach_Permutation; [by constructor | done].
Qed.

Lemma normalize_order_of_elements_witness :
  normalize
    (document "三十六小時天氣預報" "臺北市"
       [ {| Raw.elementName := "Wx";
            Raw.time := [ slot "2024-01-01T00:00" "2024-01-01T06:00" "Cloudy" ] |};
         {| Raw.elementName := "MinT";
            Raw.time := [ slot "2024-01-01T00:00" "2024-01-01T06:00" "18" ] |};
         {| Raw.elementName := "PoP";
            Raw.time := [ slot "2024-01-01T00:00" "2024-01-01T06:00" "10" ] |} ])
    (JsString "臺北市")
  = normalize
      (document "三十六小時天氣預報" "臺北市"
         [ {| Raw.elementName := "Wx";
              Raw.time := [ slot "2024-01-01T00:00" "2024-01-01T06:00" "Cloudy" ] |};
           {| Raw.elementName := "PoP";
              Raw.time := [ slot "2024-01-01T00:00" "2024-01-01T06:00" "10" ] |};
           {| Raw.elementName := "MinT";
              Raw.time := [ slot "2024-01-01T00:00" "2024-01-01T06:00" "18" ] |} ])
      (JsString "臺北市").
Proof.
  apply normalize_order_of_elements.
  - apply perm_swap.
  - apply (bool_decide_unpack _). by vm_compute.
Defined.

(** ** Requests do not see one another *)



